(** * BabyMonkeyAGI: the task store, the thought tree and the driver loop

    A shallow embedding of [BabyMonkeyAGI.py].  Python objects that are
    mutated through references (the [Thought] nodes) live in an explicit
    heap; the module-level singletons ([tasks_storage], [index]) and the
    external services are fields of one [World] record that the functions
    of the script thread through a small state-and-exception monad. *)

From Stdlib Require Import ZArith NArith List String Ascii DecimalString Lia.
From stdpp Require Import base list sorting.
Import ListNotations.

Local Open Scope N_scope.

(** ** Python strings

    A Python [str] is a sequence of Unicode code points. *)
Abbreviation char := N (only parsing).
Abbreviation str := (list N) (only parsing).

(** A literal of the script, given by its ASCII characters. *)
Definition lit (s : string) : str := map N_of_ascii (list_ascii_of_string s).
Arguments lit s%_string.

Definition nl : char := 10.
Definition dot : char := 46.
Definition space : char := 32.

(** The characters [str.strip()] removes: CPython's [_PyUnicode_IsWhitespace]. *)
Definition is_space (c : char) : bool :=
  ((9 <=? c) && (c <=? 13)) || ((28 <=? c) && (c <=? 32))
  || (c =? 133) || (c =? 160) || (c =? 5760)
  || ((8192 <=? c) && (c <=? 8202))
  || (c =? 8232) || (c =? 8233) || (c =? 8239) || (c =? 8287) || (c =? 12288).

Fixpoint lstrip (s : str) : str :=
  match s with
  | [] => []
  | c :: s' => if is_space c then lstrip s' else s
  end.

Fixpoint rstrip (s : str) : str :=
  match s with
  | [] => []
  | c :: s' =>
      match rstrip s' with
      | [] => if is_space c then [] else [c]
      | r => c :: r
      end
  end.

(** [s.strip()] *)
Definition strip (s : str) : str := rstrip (lstrip s).

(** [sep in s] for a one-character [sep] *)
Definition contains (sep : char) (s : str) : bool := existsb (N.eqb sep) s.

(** [s.split(sep)] for a one-character [sep]: never the empty list. *)
Fixpoint split (sep : char) (s : str) : list str :=
  match s with
  | [] => [[]]
  | c :: s' =>
      if c =? sep then [] :: split sep s'
      else match split sep s' with
           | [] => [[c]]
           | w :: ws => (c :: w) :: ws
           end
  end.

(** [s.partition(sep)] when [sep] occurs: the text before the first
    occurrence and the text after it. *)
Fixpoint cut (sep : char) (s : str) : option (str * str) :=
  match s with
  | [] => None
  | c :: s' =>
      if c =? sep then Some ([], s')
      else match cut sep s' with
           | Some (a, b) => Some (c :: a, b)
           | None => None
           end
  end.

(** [s.split(sep, 1)] *)
Definition split1 (sep : char) (s : str) : list str :=
  match cut sep s with
  | Some (a, b) => [a; b]
  | None => [s]
  end.

(** [s.replace(a, b)] for one-character [a] and [b] *)
Definition replace_char (a b : char) (s : str) : str :=
  map (fun c => if c =? a then b else c) s.

(** [str(z)] for a Python [int] *)
Definition str_of_int (z : Z) : str := lit (NilZero.string_of_int (Z.to_int z)).

(** [ASCII_ONLY = re.compile('[^\x00-\x7F]+')] and [re.sub(ASCII_ONLY, '', s)]:
    every run of code points above 0x7F is deleted. *)
Definition ASCII_ONLY (c : char) : bool := negb (c <=? 127).
Definition re_sub_ASCII_ONLY (s : str) : str :=
  List.filter (fun c => negb (ASCII_ONLY c)) s.

(** ** Python values, exceptions and outcomes *)

(** The values a [task_id] takes: an [int] from [next_task_id], a [str]
    from the prioritization parser. *)
Inductive pyval :=
| PyInt (z : Z)
| PyStr (s : str).

(** What a replacement field [{v}] of an f-string prints. *)
Definition format (v : pyval) : str :=
  match v with
  | PyInt z => str_of_int z
  | PyStr s => s
  end.

Inductive exn := AttributeError | IndexError.

(** The outcome of running a piece of the script: a value, a Python
    exception, a loop or call that has not answered within the fuel, or a
    reference that is not in the heap (no Python state has one). *)
Inductive outcome (A : Type) :=
| Ret (a : A)
| Raise (e : exn)
| Diverge
| Dangling.
Arguments Ret {A} a.
Arguments Raise {A} e.
Arguments Diverge {A}.
Arguments Dangling {A}.

(** ** Task storage *)

(** A task dict [{"task_id": .., "task_name": ..}] *)
Record Task := { task_id : pyval; task_name : str }.

Record SingleTaskListStorage := {
  tasks : list Task;          (* the deque, leftmost first *)
  task_id_counter : Z
}.

(** [SingleTaskListStorage()] *)
Definition new_storage : SingleTaskListStorage :=
  {| tasks := []; task_id_counter := 0 |}.

Definition append (task : Task) (self : SingleTaskListStorage) : SingleTaskListStorage :=
  {| tasks := tasks self ++ [task]; task_id_counter := task_id_counter self |}.

Definition replace (ts : list Task) (self : SingleTaskListStorage) : SingleTaskListStorage :=
  {| tasks := ts; task_id_counter := task_id_counter self |}.

(** [deque.popleft()] raises [IndexError] on an empty deque. *)
Definition popleft (self : SingleTaskListStorage) : outcome (Task * SingleTaskListStorage) :=
  match tasks self with
  | [] => Raise IndexError
  | t :: rest => Ret (t, {| tasks := rest; task_id_counter := task_id_counter self |})
  end.

Definition is_empty (self : SingleTaskListStorage) : bool :=
  match tasks self with [] => true | _ => false end.

Definition next_task_id (self : SingleTaskListStorage) : Z * SingleTaskListStorage :=
  let c := (task_id_counter self + 1)%Z in
  (c, {| tasks := tasks self; task_id_counter := c |}).

Definition get_task_names (self : SingleTaskListStorage) : list str :=
  map task_name (tasks self).

Local Close Scope N_scope.

(** ** Thoughts and the thought tree

    [Thought] objects are shared and mutated in place ([parent.add_child]),
    so they live in a heap and are named by their address; an object is
    allocated at the end of the heap. *)
Abbreviation ref := nat (only parsing).

Record Thought := {
  thought_name : str;           (* [self.task_name] *)
  parent : option ref;          (* [self.parent], [None] for a root *)
  children : list ref           (* [self.children] *)
}.

Record ThoughtTree := { root : option ref }.

(** [ThoughtTree()] *)
Definition new_tree : ThoughtTree := {| root := None |}.

(** [Thought.add_child]: [self.children.append(child)] *)
Definition add_child (child : ref) (self : Thought) : Thought :=
  {| thought_name := thought_name self;
     parent := parent self;
     children := children self ++ [child] |}.

(** [ThoughtTree.add_thought]; a [Thought] object is always truthy, so
    [if parent:] tests [parent is not None]. *)
Definition add_thought (name : str) (par : option ref)
    (h : list Thought) (self : ThoughtTree) : ref * list Thought * ThoughtTree :=
  let new_thought := length h in
  let h1 := h ++ [{| thought_name := name; parent := par; children := [] |}] in
  match par with
  | Some p => (new_thought, alter (add_child new_thought) p h1, self)
  | None => (new_thought, h1, {| root := Some new_thought |})
  end.

(** [list.pop()]: the last element and the list without it. *)
Fixpoint pop {A} (l : list A) : option (list A * A) :=
  match l with
  | [] => None
  | x :: l' =>
      match pop l' with
      | None => Some ([], x)
      | Some (r, y) => Some (x :: r, y)
      end
  end.

(** The [while stack:] loop of [get_next_thought]; the stack holds what
    [thought_tree.root] and the [children] lists hold, so an entry may be
    [None]. *)
Fixpoint get_next_thought_loop (fuel : nat) (h : list Thought)
    (stack : list (option ref)) : outcome (option ref) :=
  match fuel with
  | O => Diverge
  | S fuel' =>
      match pop stack with
      | None => Ret None                              (* [return None] *)
      | Some (stack', None) => Raise AttributeError   (* [None.children] *)
      | Some (stack', Some thought) =>
          match h !! thought with
          | None => Dangling
          | Some t =>
              match children t with
              | [] => Ret (Some thought)
              | cs => get_next_thought_loop fuel' h (stack' ++ map Some cs)
              end
          end
      end
  end.

Definition get_next_thought_fuel (fuel : nat) (h : list Thought)
    (thought_tree : ThoughtTree) : outcome (option ref) :=
  get_next_thought_loop fuel h [root thought_tree].

(** One turn of the loop per object of the heap, and one more, is all an
    acyclic heap can take. *)
Definition get_next_thought (h : list Thought) (thought_tree : ThoughtTree)
    : outcome (option ref) :=
  get_next_thought_fuel (S (length h)) h thought_tree.

Definition is_thought_tree_empty (thought_tree : ThoughtTree) : bool :=
  match root thought_tree with None => true | Some _ => false end.

(** The dict [task_map], in the order it is written. *)
Definition task_map : list (string * list string) :=
  [ ("INITIAL_TASK", ["Define problem"; "Gather resources"; "Develop plan"]);
    ("Define problem", ["Identify key components"; "Determine constraints"; "Set goals"]);
    ("Gather resources", ["Search for information"; "Organize resources"; "Evaluate resources"]);
    ("Develop plan", ["Outline steps"; "Assign responsibilities"; "Set timeline"]) ]%string.

Definition str_eqb (a b : str) : bool := bool_decide (a = b).

(** [d.get(key, [])] *)
Fixpoint task_map_get (d : list (string * list string)) (key : str) : list str :=
  match d with
  | [] => []
  | (k, v) :: d' => if str_eqb (lit k) key then map lit v else task_map_get d' key
  end.

Definition generate_tasks_based_on_thought (thought : Thought) : list str :=
  task_map_get task_map (thought_name thought).

(** ** Configuration, external services and the world *)

Record Config := {
  OBJECTIVE : str;
  INITIAL_TASK : str;
  JOIN_EXISTING_OBJECTIVE : bool
}.

Definition OBJECTIVE_PINECONE_COMPAT (cfg : Config) : str :=
  re_sub_ASCII_ONLY (OBJECTIVE cfg).

(** The embedding service is opaque: a vector is known by the text that
    was sent for it. *)
Inductive vector := Embedding_create (input : str).

(** [get_ada_embedding] *)
Definition get_ada_embedding (text : str) : vector :=
  Embedding_create (replace_char nl space text).

(** The metadata dict [{"task": .., "result": ..}] *)
Record Metadata := { md_task : str; md_result : str }.

Inductive kwval := KwStr (s : str) | KwInt (z : Z) | KwBool (b : bool).

(** A call [index.upsert(vectors, **kwargs)] as the index receives it:
    the keyword arguments under the names the caller wrote. *)
Record UpsertCall := {
  upsert_vectors : list (str * vector * Metadata);
  upsert_kwargs : list (string * kwval)
}.

(** A call [index.query(vector, **kwargs)] *)
Record QueryCall := {
  query_vector : vector;
  query_kwargs : list (string * kwval)
}.

(** The keyword argument [name] of a call, if the caller gave one. *)
Fixpoint kwarg (name : string) (kw : list (string * kwval)) : option kwval :=
  match kw with
  | [] => None
  | (k, v) :: kw' => if String.eqb k name then Some v else kwarg name kw'
  end.

(** The data a prompt is formatted from; the text around it is fixed. *)
Inductive Prompt :=
| ExplorePrompt (task_name : str)
| PrioritizationPrompt (task_names : list str) (objective : str) (next_task_id : Z).

Record World := {
  heap : list Thought;
  thought_tree : ThoughtTree;               (* the tree [main] creates *)
  tasks_storage : SingleTaskListStorage;
  index : list UpsertCall;                  (* upserts received, oldest first *)
  oracle : list str;                        (* the texts the oracle will answer *)
  asked : list Prompt                       (* the prompts it was sent *)
}.

Definition set_thoughts (h : list Thought) (t : ThoughtTree) (w : World) : World :=
  {| heap := h; thought_tree := t; tasks_storage := tasks_storage w;
     index := index w; oracle := oracle w; asked := asked w |}.

Definition set_tasks_storage (s : SingleTaskListStorage) (w : World) : World :=
  {| heap := heap w; thought_tree := thought_tree w; tasks_storage := s;
     index := index w; oracle := oracle w; asked := asked w |}.

(** ** The monad of the script *)

Definition M (A : Type) : Type := World -> outcome (A * World).

Definition ret {A} (a : A) : M A := fun w => Ret (a, w).

Definition bind {A B} (m : M A) (k : A -> M B) : M B :=
  fun w =>
    match m w with
    | Ret (a, w') => k a w'
    | Raise e => Raise e
    | Diverge => Diverge
    | Dangling => Dangling
    end.

Definition raise {A} (e : exn) : M A := fun _ => Raise e.

Notation "x <- m ;; k" := (bind m (fun x => k))
  (at level 100, m at next level, right associativity).
Notation "m ;;; k" := (bind m (fun _ => k))
  (at level 100, right associativity).

(** [for x in xs: body(x)] *)
Fixpoint for_each {A} (xs : list A) (body : A -> M unit) : M unit :=
  match xs with
  | [] => ret tt
  | x :: xs' => body x ;;; for_each xs' body
  end.

(** [while cond: body], at most [n] turns. *)
Fixpoint while (n : nat) (cond : World -> bool) (body : M unit) : M unit :=
  match n with
  | O => fun w => if cond w then Diverge else Ret (tt, w)
  | S n' => fun w => if cond w then (body ;;; while n' cond body) w else Ret (tt, w)
  end.

(** Reading an attribute of what a variable holds. *)
Definition attr {A} (f : Thought -> A) (thought : option ref) : M A :=
  fun w =>
    match thought with
    | None => Raise AttributeError
    | Some r =>
        match heap w !! r with
        | None => Dangling
        | Some t => Ret (f t, w)
        end
    end.

(** [openai_call]: the next answer of the oracle; it retries for ever
    when none comes. *)
Definition openai_call (prompt : Prompt) : M str :=
  fun w =>
    match oracle w with
    | [] => Diverge
    | response :: rest =>
        Ret (response,
             {| heap := heap w; thought_tree := thought_tree w;
                tasks_storage := tasks_storage w; index := index w;
                oracle := rest; asked := asked w ++ [prompt] |})
    end.

Definition index_upsert (call : UpsertCall) : M unit :=
  fun w =>
    Ret (tt,
         {| heap := heap w; thought_tree := thought_tree w;
            tasks_storage := tasks_storage w; index := index w ++ [call];
            oracle := oracle w; asked := asked w |}).

(** The methods of the module-level [tasks_storage]. *)
Definition tasks_storage_append (task : Task) : M unit :=
  fun w => Ret (tt, set_tasks_storage (append task (tasks_storage w)) w).

Definition tasks_storage_replace (ts : list Task) : M unit :=
  fun w => Ret (tt, set_tasks_storage (replace ts (tasks_storage w)) w).

Definition tasks_storage_popleft : M Task :=
  fun w =>
    match popleft (tasks_storage w) with
    | Ret (t, s) => Ret (t, set_tasks_storage s w)
    | Raise e => Raise e
    | Diverge => Diverge
    | Dangling => Dangling
    end.

Definition tasks_storage_next_task_id : M Z :=
  fun w => let '(c, s) := next_task_id (tasks_storage w) in Ret (c, set_tasks_storage s w).

Definition tasks_storage_get_task_names : M (list str) :=
  fun w => Ret (get_task_names (tasks_storage w), w).

(** ** The agents *)

(** The [for task_name in new_tasks] loop of [task_creation_agent]. *)
Fixpoint add_thoughts (names : list str) (par : option ref)
    (h : list Thought) (t : ThoughtTree) : list Thought * ThoughtTree :=
  match names with
  | [] => (h, t)
  | name :: names' =>
      let '(_, h', t') := add_thought name par h t in
      add_thoughts names' par h' t'
  end.

(** [task_creation_agent(objective, result, task_description, thought_tree)];
    [new_tasks] is a list, never [None]. *)
Definition task_creation_agent (objective result task_description : str)
    : M (list str) :=
  fun w =>
    let current_thought := root (thought_tree w) in
    match attr generate_tasks_based_on_thought current_thought w with
    | Ret (new_tasks, w) =>
        let '(h, t) := add_thoughts new_tasks current_thought (heap w) (thought_tree w) in
        Ret (new_tasks, set_thoughts h t w)
    | Raise e => Raise e
    | Diverge => Diverge
    | Dangling => Dangling
    end.

(** The body of the [for task_string in new_tasks] loop of
    [prioritization_agent]. *)
Definition parse_task_string (new_tasks_list : list Task) (task_string : str)
    : list Task :=
  match split1 dot (strip task_string) with
  | [part0; part1] =>
      new_tasks_list ++ [{| task_id := PyStr (strip part0); task_name := strip part1 |}]
  | _ => new_tasks_list
  end.

Definition prioritization_agent (cfg : Config) : M unit :=
  task_names <- tasks_storage_get_task_names ;;
  next_task_id <- tasks_storage_next_task_id ;;
  response <- openai_call (PrioritizationPrompt task_names (OBJECTIVE cfg) next_task_id) ;;
  let new_tasks := if contains nl response then split nl response else [response] in
  let new_tasks_list := fold_left parse_task_string new_tasks [] in
  tasks_storage_replace new_tasks_list.

Definition explore_thought (thought : option ref) : M str :=
  name <- attr thought_name thought ;;
  openai_call (ExplorePrompt name).

Definition execution_agent (objective : str) (thought : option ref) : M str :=
  result <- explore_thought thought ;;
  ret result.

(** The call [context_agent] sends to the index. *)
Definition context_agent_query (cfg : Config) (query : str) (top_results_num : Z)
    : QueryCall :=
  {| query_vector := get_ada_embedding query;
     query_kwargs := [ ("top_k", KwInt top_results_num);
                       ("include_metadata", KwBool true);
                       ("namespace", KwStr (OBJECTIVE_PINECONE_COMPAT cfg)) ]%string |}.

(** ** Start-up and the driver loop *)

(** The module-level statements: the storage and, unless an objective is
    joined, the initial task. *)
Definition startup (cfg : Config) (answers : list str) : World :=
  let s0 := new_storage in
  let s :=
    if JOIN_EXISTING_OBJECTIVE cfg then s0
    else let '(c, s1) := next_task_id s0 in
         append {| task_id := PyInt c; task_name := INITIAL_TASK cfg |} s1 in
  {| heap := []; thought_tree := new_tree; tasks_storage := s;
     index := []; oracle := answers; asked := [] |}.

Definition run_get_next_thought : M (option ref) :=
  fun w =>
    match get_next_thought (heap w) (thought_tree w) with
    | Ret r => Ret (r, w)
    | Raise e => Raise e
    | Diverge => Diverge
    | Dangling => Dangling
    end.

(** What [main] does with the thought it selected, up to the new tasks:
    steps 1 and 2 and the first half of step 3. *)
Definition main_execute_and_create (cfg : Config) (current_thought : option ref)
    : M unit :=
  task <- tasks_storage_popleft ;;
  result <- execution_agent (OBJECTIVE cfg) current_thought ;;
  let result_id := lit "result_" ++ format (task_id task) in
  let vector := get_ada_embedding result in
  index_upsert
    {| upsert_vectors :=
         [(result_id, vector, {| md_task := task_name task; md_result := result |})];
       upsert_kwargs := [("nmespace", KwStr (OBJECTIVE_PINECONE_COMPAT cfg))]%string |} ;;;
  task_description <- attr thought_name current_thought ;;
  new_tasks <- task_creation_agent (OBJECTIVE cfg) result task_description ;;
  for_each new_tasks (fun task_name =>
    c <- tasks_storage_next_task_id ;;
    tasks_storage_append {| task_id := PyInt c; task_name := task_name |}).

(** The rest of the turn: the reprioritization. *)
Definition main_steps (cfg : Config) (current_thought : option ref) : M unit :=
  main_execute_and_create cfg current_thought ;;;
  if JOIN_EXISTING_OBJECTIVE cfg then ret tt else prioritization_agent cfg.

(** The body of the [while] loop of [main]. *)
Definition main_body (cfg : Config) : M unit :=
  current_thought <- run_get_next_thought ;;
  main_steps cfg current_thought.

Definition main_loop (cfg : Config) (n : nat) : M unit :=
  while n (fun w => negb (is_thought_tree_empty (thought_tree w))) (main_body cfg).

(** The first two statements of [main]: the tree and its root. *)
Definition main_seed (cfg : Config) : M unit :=
  fun w =>
    let '(_, h, t) := add_thought (INITIAL_TASK cfg) None (heap w) new_tree in
    Ret (tt, set_thoughts h t w).

(** [main()], the loop cut after [n] turns. *)
Definition main (cfg : Config) (n : nat) : M unit :=
  main_seed cfg ;;; main_loop cfg n.

(** [n] turns of the loop body, whatever the loop test says. *)
Fixpoint turns (cfg : Config) (n : nat) : M unit :=
  match n with
  | O => ret tt
  | S n' => main_body cfg ;;; turns cfg n'
  end.

(** * The vocabulary of the properties *)

(** ** The prioritization parser, as the specification words it

    A line is kept when it splits in two on its first [.]: the part before,
    stripped, is the [task_id] and the part after, stripped, the
    [task_name]; any other line is dropped. *)
Definition parse_line (line : str) : option Task :=
  match cut dot line with
  | Some (before, after) =>
      Some {| task_id := PyStr (strip before); task_name := strip after |}
  | None => None
  end.

Definition parsed_tasks (response : str) : list Task :=
  omap parse_line (split nl response).

(** The tasks the loop of [main] appends for [names] when the counter
    stands at [c]. *)
Fixpoint new_tasks_from (c : Z) (names : list str) : list Task :=
  match names with
  | [] => []
  | name :: names' =>
      {| task_id := PyInt (c + 1); task_name := name |} :: new_tasks_from (c + 1) names'
  end.

(** The [Thought] objects [add_thought] makes for [names] under [par]. *)
Definition new_thoughts (names : list str) (par : option ref) : list Thought :=
  map (λ name, {| thought_name := name; parent := par; children := [] |}) names.

(** [self.children.extend(cs)] *)
Definition add_children (cs : list ref) (self : Thought) : Thought :=
  {| thought_name := thought_name self;
     parent := parent self;
     children := children self ++ cs |}.

(** ** Histories of a task store

    A client of a fresh store that only appends and pops; a failed
    [popleft] ([IndexError]) leaves the deque as it was. *)
Inductive queue_op :=
| Append (t : Task)
| Popleft.

Record History := {
  store : SingleTaskListStorage;
  appended : list Task;       (* every task passed to [append], in order *)
  returned : list Task        (* every task [popleft] returned, in order *)
}.

Definition new_history : History :=
  {| store := new_storage; appended := []; returned := [] |}.

Definition queue_step (hi : History) (op : queue_op) : History :=
  match op with
  | Append t =>
      {| store := append t (store hi); appended := appended hi ++ [t];
         returned := returned hi |}
  | Popleft =>
      match popleft (store hi) with
      | Ret (t, s) =>
          {| store := s; appended := appended hi; returned := returned hi ++ [t] |}
      | _ => hi
      end
  end.

Definition queue_run (ops : list queue_op) : History :=
  fold_left queue_step ops new_history.

(** The store as the driver uses it between two prioritizations: a new
    task takes its id from [next_task_id()] at the moment it is appended
    (the initial task and the loop of [main]); ids are also drawn without
    an append ([prioritization_agent]). *)
Inductive driver_op :=
| AppendNew (name : str)
| PopleftTask
| DrawId.

Definition driver_step (hi : History) (op : driver_op) : History :=
  match op with
  | AppendNew name =>
      let '(c, s) := next_task_id (store hi) in
      let t := {| task_id := PyInt c; task_name := name |} in
      {| store := append t s; appended := appended hi ++ [t]; returned := returned hi |}
  | PopleftTask =>
      match popleft (store hi) with
      | Ret (t, s) =>
          {| store := s; appended := appended hi; returned := returned hi ++ [t] |}
      | _ => hi
      end
  | DrawId =>
      {| store := snd (next_task_id (store hi)); appended := appended hi;
         returned := returned hi |}
  end.

Definition driver_run (ops : list driver_op) : History :=
  fold_left driver_step ops new_history.

(** The ids a driver history has handed out are integers in
    [1 .. task_id_counter]. *)
Definition ids_below (c : Z) (ts : list Task) : Prop :=
  Forall (λ t, ∃ z, task_id t = PyInt z ∧ (0 < z ≤ c)%Z) ts.

(** ** The trees the program can build

    A heap and a tree reached from [ThoughtTree()] by [add_thought] calls
    whose [parent] is a [Thought] made earlier (or [None]). *)
Inductive built : list Thought → ThoughtTree → Prop :=
| built_new : built [] new_tree
| built_add name par h t :
    built h t →
    (∀ p, par = Some p → p < length h) →
    built (add_thought name par h t).1.2 (add_thought name par h t).2.

(** Children are younger than their parent, and the root is in the heap. *)
Definition heap_wf (h : list Thought) (t : ThoughtTree) : Prop :=
  (∀ i th, h !! i = Some th → Forall (λ c, i < c < length h) (children th))
  ∧ (∀ r, root t = Some r → r < length h).

Definition is_leaf (h : list Thought) (r : ref) : bool :=
  match h !! r with
  | Some th => match children th with [] => true | _ => false end
  | None => false
  end.

(** From [r], step into the most recently added child until a thought
    has none. *)
Fixpoint newest_leaf (fuel : nat) (h : list Thought) (r : ref) : option ref :=
  match fuel with
  | O => None
  | S fuel' =>
      match h !! r with
      | None => None
      | Some th =>
          match last (children th) with
          | None => Some r
          | Some c => newest_leaf fuel' h c
          end
      end
  end.

(** The thoughts below [r] in depth-first order, a thought before its
    subtrees and the most recently added subtree first. *)
Fixpoint dfs_newest_first (fuel : nat) (h : list Thought) (r : ref) : list ref :=
  match fuel with
  | O => []
  | S fuel' =>
      match h !! r with
      | None => []
      | Some th => r :: flat_map (dfs_newest_first fuel' h) (rev (children th))
      end
  end.

(** The first leaf of that order. *)
Definition first_leaf (h : list Thought) (r : ref) : option ref :=
  List.find (is_leaf h) (dfs_newest_first (length h) h r).

(** A computation that leaves the thoughts and the tree as they are. *)
Definition keeps_thoughts {A} (m : M A) : Prop :=
  ∀ w a w', m w = Ret (a, w') → heap w' = heap w ∧ thought_tree w' = thought_tree w.

(** The world when the loop of [main] is entered. *)
Definition seeded (cfg : Config) (answers : list str) : World :=
  match main_seed cfg (startup cfg answers) with
  | Ret (_, w) => w
  | _ => startup cfg answers
  end.

(** * Sample data *)

Definition lines (ls : list string) : str :=
  match ls with
  | [] => []
  | l :: ls' => fold_left (fun acc x => acc ++ nl :: lit x) ls' (lit l)
  end.

Definition task_a : Task := {| task_id := PyInt 1; task_name := lit "Define problem" |}.
Definition task_b : Task := {| task_id := PyInt 2; task_name := lit "Set goals" |}.

Definition trip : Config :=
  {| OBJECTIVE := lit "Plan a trip";
     INITIAL_TASK := lit "Define problem";
     JOIN_EXISTING_OBJECTIVE := false |}.

(** A run with one thought, whose name the task map does not know. *)
Definition solo : Config :=
  {| OBJECTIVE := lit "Plan a trip";
     INITIAL_TASK := lit "Book flight";
     JOIN_EXISTING_OBJECTIVE := false |}.

(** A run whose root has children that have children in the task map. *)
Definition staged : Config :=
  {| OBJECTIVE := lit "Plan a trip";
     INITIAL_TASK := lit "INITIAL_TASK";
     JOIN_EXISTING_OBJECTIVE := false |}.

(** The answer of the prioritization scenario and the tasks it holds. *)
Definition noisy_response : str :=
  lines ["2. Pack bags"; "3. Book flight"; "NOISE LINE"; "4. Confirm hotel"]%string.

Definition noisy_tasks : list Task :=
  [ {| task_id := PyStr (lit "2"); task_name := lit "Pack bags" |};
    {| task_id := PyStr (lit "3"); task_name := lit "Book flight" |};
    {| task_id := PyStr (lit "4"); task_name := lit "Confirm hotel" |} ].

(** The answers of the oracle in the sample runs: for each turn the
    result of the execution, then the reprioritized list. *)
Definition staged_answers : list str :=
  [ lit "r1";
    lines ["5. Define problem"; "6. Gather resources"; "7. Develop plan"]%string;
    lit "r2";
    lit "9. Outline steps" ].

Definition solo_answers : list str :=
  [ lit "booked"; lit "2. Book flight"; lit "booked again"; lit "3. Book flight" ].

(** The sample trees: a lone root A, and A with the children B and C. *)
Definition tree_A : list Thought * ThoughtTree :=
  ((add_thought (lit "A") None [] new_tree).1.2,
   (add_thought (lit "A") None [] new_tree).2).

Definition tree_ABC : list Thought * ThoughtTree :=
  add_thoughts [lit "B"; lit "C"] (Some 0) tree_A.1 tree_A.2.

(** * The rest of the script *)

(** ** [openai_call]: the back ends and the retries

    The oracle of the [World] gives the answers [openai_call] returns; here
    is the loop that gets one answer out of the back end. *)

(** [s.startswith(prefix)] *)
Fixpoint startswith (prefix s : str) : bool :=
  match prefix, s with
  | [], _ => true
  | p :: prefix', c :: s' => (c =? p)%N && startswith prefix' s'
  | _ :: _, [] => false
  end.

(** The three ways of asking: the [llama/main] subprocess, the completion
    API and the chat completion API. *)
Inductive backend := llama_main | openai_Completion | openai_ChatCompletion.

(** The [if] / [elif] / [else] on the model name. *)
Definition backend_of (model : str) : backend :=
  if startswith (lit "llama") model then llama_main
  else if negb (startswith (lit "gpt-") model) then openai_Completion
  else openai_ChatCompletion.

(** What an attempt may raise: the six classes of [openai.error] the loop
    has a handler for, and any other exception. *)
Inductive api_exception :=
| error_RateLimitError
| error_Timeout
| error_APIError
| error_APIConnectionError
| error_InvalidRequestError
| error_ServiceUnavailableError
| other_exception.

(** One pass through the [try]: the back end returns a text or raises. *)
Inductive attempt :=
| Returns (text : str)
| Raises (e : api_exception).

(** The exceptions that have an [except] clause; each clause prints a
    message and sleeps ten seconds. *)
Definition caught (e : api_exception) : bool :=
  match e with
  | other_exception => false
  | _ => true
  end.

(** How a call ends, and the seconds it has slept: with the answer, with
    an exception no clause catches, or still retrying when the attempts
    that are listed are used up. *)
Inductive call_outcome :=
| Answer (text : str) (slept : Z)
| Escapes (e : api_exception) (slept : Z)
| StillRetrying (slept : Z).

(** The [while True:] loop of [openai_call]; every branch returns the
    text of the back end stripped. *)
Fixpoint openai_call_loop (attempts : list attempt) (slept : Z) : call_outcome :=
  match attempts with
  | [] => StillRetrying slept
  | Returns text :: _ => Answer (strip text) slept
  | Raises e :: attempts' =>
      if caught e then openai_call_loop attempts' (slept + 10)
      else Escapes e slept
  end.

(** [openai_call(prompt, model)] when the back end [b] behaves as
    [behaviour b]. *)
Definition openai_call_retrying (model : str) (behaviour : backend → list attempt)
    : call_outcome :=
  openai_call_loop (behaviour (backend_of model)) 0.

(** ** [ThoughtTree.get_thoughts] *)

(** The list [get_thoughts] returns: a name, then one such list for each
    child. *)
#[warnings="-register-all"] Inductive nested := Nested (name : str) (subs : list nested).

(** The values of a list comprehension, or the first thing that goes
    wrong while it is evaluated. *)
Fixpoint comprehension {A} (os : list (outcome A)) : outcome (list A) :=
  match os with
  | [] => Ret []
  | o :: os' =>
      match o with
      | Ret a =>
          match comprehension os' with
          | Ret l => Ret (a :: l)
          | Raise e => Raise e
          | Diverge => Diverge
          | Dangling => Dangling
          end
      | Raise e => Raise e
      | Diverge => Diverge
      | Dangling => Dangling
      end
  end.

(** [get_thoughts(thought)], the recursion cut at depth [fuel]. *)
Fixpoint get_thoughts (fuel : nat) (h : list Thought) (thought : option ref)
    : outcome nested :=
  match fuel with
  | O => Diverge
  | S fuel' =>
      match thought with
      | None => Raise AttributeError
      | Some r =>
          match h !! r with
          | None => Dangling
          | Some t =>
              match comprehension
                      (map (λ child, get_thoughts fuel' h (Some child)) (children t)) with
              | Ret subs => Ret (Nested (thought_name t) subs)
              | Raise e => Raise e
              | Diverge => Diverge
              | Dangling => Dangling
              end
          end
      end
  end.

(** * More vocabulary *)

(** [n] calls of [next_task_id()] in a row: the ids they return. *)
Fixpoint next_task_ids (n : nat) (self : SingleTaskListStorage)
    : list Z * SingleTaskListStorage :=
  match n with
  | O => ([], self)
  | S n' =>
      let '(c, s) := next_task_id self in
      let '(cs, s') := next_task_ids n' s in
      (c :: cs, s')
  end.

(** [n] calls of [popleft()] in a row: the tasks they return, or the
    exception of the first call that fails. *)
Fixpoint poplefts (n : nat) (self : SingleTaskListStorage)
    : outcome (list Task * SingleTaskListStorage) :=
  match n with
  | O => Ret ([], self)
  | S n' =>
      match popleft self with
      | Ret (t, s) =>
          match poplefts n' s with
          | Ret (ts, s') => Ret (t :: ts, s')
          | Raise e => Raise e
          | Diverge => Diverge
          | Dangling => Dangling
          end
      | Raise e => Raise e
      | Diverge => Diverge
      | Dangling => Dangling
      end
  end.

(** The text [get_ada_embedding] sends to the embedding service. *)
Definition embedded_text (v : vector) : str :=
  match v with Embedding_create input => input end.

(** [c] is in the [children] of [p]; the [parent] of [c] is [p]. *)
Definition child_of (h : list Thought) (c p : ref) : Prop :=
  ∃ th, h !! p = Some th ∧ c ∈ children th.

Definition parent_of (h : list Thought) (c p : ref) : Prop :=
  ∃ tc, h !! c = Some tc ∧ parent tc = Some p.

(** The names of a nested list, read from left to right. *)
Fixpoint names_of (n : nested) : list str :=
  match n with
  | Nested name subs => name :: flat_map names_of subs
  end.

(** The thoughts below [r] in depth-first order, a thought before its
    subtrees and the subtrees in the order they were added. *)
Fixpoint dfs_oldest_first (fuel : nat) (h : list Thought) (r : ref) : list ref :=
  match fuel with
  | O => []
  | S fuel' =>
      match h !! r with
      | None => []
      | Some th => r :: flat_map (dfs_oldest_first fuel' h) (children th)
      end
  end.

(** The name of the thought at [r]. *)
Definition name_at (h : list Thought) (r : ref) : str :=
  from_option thought_name [] (h !! r).

(** [sep.join(ls)] *)
Fixpoint join (sep : char) (ls : list str) : str :=
  match ls with
  | [] => []
  | l :: ls' =>
      match ls' with
      | [] => l
      | _ => l ++ sep :: join sep ls'
      end
  end.

(** A task as a line of a numbered list, "<id>. <name>", and the task
    with its id printed. *)
Definition numbered (t : Task) : str :=
  format (task_id t) ++ dot :: space :: task_name t.

Definition id_printed (t : Task) : Task :=
  {| task_id := PyStr (format (task_id t)); task_name := task_name t |}.

(** A piece of text that a line of a list can carry: no newline, no white
    space at either end. *)
Definition plain (s : str) : Prop := (nl ∉ s) ∧ strip s = s.

(** A task that a numbered list can carry. *)
Definition listable (t : Task) : Prop :=
  (dot ∉ format (task_id t)) ∧ plain (format (task_id t)) ∧ plain (task_name t).

(** ** The run of [main] read off the answers of the oracle

    Each turn of the loop takes two answers, the result of the execution
    and the reprioritized list; the loop goes on as long as the list holds
    a task. *)
Fixpoint main_outcome (answers : list str) : outcome (unit * World) :=
  match answers with
  | _ :: response :: more =>
      match parsed_tasks response with
      | [] => Raise IndexError
      | _ :: _ => main_outcome more
      end
  | _ => Diverge
  end.

(** The names the task map has for the initial task. *)
Definition root_names (cfg : Config) : list str :=
  task_map_get task_map (INITIAL_TASK cfg).

(** The root with [k] rounds of those names under it. *)
Definition root_with_rounds (cfg : Config) (k : nat) : list Thought :=
  {| thought_name := INITIAL_TASK cfg; parent := None;
     children := seq 1 (k * length (root_names cfg)) |}
  :: new_thoughts (concat (replicate k (root_names cfg))) (Some 0).

(** * Properties *)

(** ** Task storage *)

Lemma queue_run_snoc ops op :
  queue_run (ops ++ [op]) = queue_step (queue_run ops) op.
Proof. unfold queue_run. by rewrite fold_left_app. Qed.

Lemma queue_step_fifo hi op :
  appended hi = returned hi ++ tasks (store hi) →
  appended (queue_step hi op) =
    returned (queue_step hi op) ++ tasks (store (queue_step hi op)).
Proof.
  intros Hinv. destruct op as [t|]; simpl.
  - rewrite Hinv. by rewrite app_assoc.
  - unfold popleft. destruct (tasks (store hi)) as [|t rest] eqn:Hq; simpl.
    + by rewrite Hq.
    + rewrite Hinv. by rewrite <- app_assoc.
Qed.

Lemma queue_run_fifo ops :
  appended (queue_run ops) =
    returned (queue_run ops) ++ tasks (store (queue_run ops)).
Proof.
  induction ops as [|op ops IH] using rev_ind; [done|].
  rewrite queue_run_snoc. by apply queue_step_fifo.
Qed.

(** C9. For every sequence of [append] and [popleft] calls on a new store,
    the tasks appended so far are the tasks returned so far followed by the
    tasks still held, in that order; so a [popleft] that returns a task
    returns the earliest-appended one not yet returned (the one at position
    "number of tasks returned so far" of the appended sequence), which was
    appended before, and a [popleft] fails only when every appended task has
    been returned. *)
Theorem C9_popleft_fifo (ops : list queue_op) :
  let hi := queue_run ops in
  appended hi = returned hi ++ tasks (store hi)
  ∧ (∀ t s, popleft (store hi) = Ret (t, s) →
       appended hi !! length (returned hi) = Some t
       ∧ t ∈ appended hi
       ∧ returned (queue_run (ops ++ [Popleft])) = returned hi ++ [t]
       ∧ tasks (store hi) = t :: tasks s)
  ∧ (∀ e, popleft (store hi) = Raise e →
       e = IndexError ∧ returned hi = appended hi).
Proof.
  intros hi. pose proof (queue_run_fifo ops) as Hinv. fold hi in Hinv.
  split; [done|]. split.
  - intros t s Hpop. unfold popleft in Hpop.
    destruct (tasks (store hi)) as [|t' rest] eqn:Hq; [done|].
    injection Hpop as -> <-. simpl.
    assert (appended hi !! length (returned hi) = Some t) as Hlk.
    { rewrite Hinv. rewrite lookup_app_r by lia. by rewrite Nat.sub_diag. }
    split_and!; [done| |..].
    + apply list_elem_of_lookup. eauto.
    + rewrite queue_run_snoc. fold hi. simpl. unfold popleft. by rewrite Hq.
    + done.
  - intros e Hpop. unfold popleft in Hpop.
    destruct (tasks (store hi)) as [|t' rest] eqn:Hq; [|done].
    injection Hpop as <-. split; [done|]. by rewrite Hinv, app_nil_r.
Qed.

Lemma C9_popleft_fifo_witness :
  let hi := queue_run [Append task_a; Append task_b; Popleft] in
  appended hi !! length (returned hi) = Some task_b
  ∧ returned (queue_run ([Append task_a; Append task_b; Popleft] ++ [Popleft]))
    = [task_a; task_b].
Proof.
  intros hi.
  destruct (C9_popleft_fifo [Append task_a; Append task_b; Popleft])
    as (_ & Hpop & _).
  destruct (Hpop task_b {| tasks := []; task_id_counter := 0 |})
    as (Hlk & _ & Hret & _); [reflexivity|].
  split; [exact Hlk | exact Hret].
Defined.

(** C10. [replace] leaves the task-id counter alone: the [next_task_id()]
    that follows a [replace(ts)] returns what it would have returned
    without the [replace], whatever ids the tasks of [ts] carry. *)
Theorem C10_replace_keeps_counter (ts : list Task) (self : SingleTaskListStorage) :
  task_id_counter (replace ts self) = task_id_counter self
  ∧ fst (next_task_id (replace ts self)) = fst (next_task_id self)
  ∧ task_id_counter (snd (next_task_id (replace ts self)))
    = task_id_counter (snd (next_task_id self)).
Proof. by unfold replace, next_task_id. Qed.

Lemma next_task_id_spec (self : SingleTaskListStorage) :
  fst (next_task_id self) = (task_id_counter self + 1)%Z
  ∧ task_id_counter (snd (next_task_id self)) = (task_id_counter self + 1)%Z
  ∧ tasks (snd (next_task_id self)) = tasks self.
Proof. done. Qed.

Lemma driver_run_snoc ops op :
  driver_run (ops ++ [op]) = driver_step (driver_run ops) op.
Proof. unfold driver_run. by rewrite fold_left_app. Qed.

Lemma ids_below_mono c c' ts : (c ≤ c')%Z → ids_below c ts → ids_below c' ts.
Proof.
  intros Hle Hall. unfold ids_below in *. eapply Forall_impl; [exact Hall|].
  intros t (z & Hid & Hz). exists z. split; [done | lia].
Qed.

Lemma ids_below_fresh c ts : ids_below c ts → PyInt (c + 1) ∉ map task_id ts.
Proof.
  intros Hall Hin. apply list_elem_of_In, in_map_iff in Hin.
  destruct Hin as (t & Hid & Hin).
  apply list_elem_of_In in Hin.
  unfold ids_below in Hall. rewrite Forall_forall in Hall.
  destruct (Hall t Hin) as (z & Hz & Hrange).
  rewrite Hz in Hid. injection Hid as ->. lia.
Qed.

(** What every driver history keeps true. *)
Lemma driver_run_inv ops :
  let hi := driver_run ops in
  appended hi = returned hi ++ tasks (store hi)
  ∧ (0 ≤ task_id_counter (store hi))%Z
  ∧ ids_below (task_id_counter (store hi)) (appended hi)
  ∧ NoDup (map task_id (appended hi)).
Proof.
  induction ops as [|op ops IH] using rev_ind.
  { cbn. split_and!; [done | done | by apply Forall_nil | by apply NoDup_nil]. }
  rewrite driver_run_snoc. cbv zeta in *.
  destruct IH as (Hfifo & Hpos & Hids & Hnd).
  set (hi := driver_run ops) in *.
  destruct op as [name| |]; simpl.
  - split_and!.
    + rewrite Hfifo. by rewrite app_assoc.
    + lia.
    + apply Forall_app. split.
      * eapply ids_below_mono; [|exact Hids]. lia.
      * apply Forall_cons. split; [|by apply Forall_nil].
        exists (task_id_counter (store hi) + 1)%Z. split; [done|lia].
    + rewrite map_app. simpl. apply NoDup_app. split_and!; [done| |].
      * intros x Hx Hx'. apply list_elem_of_singleton in Hx'. subst x.
        by apply ids_below_fresh in Hids.
      * apply NoDup_singleton.
  - unfold popleft. destruct (tasks (store hi)) as [|t rest] eqn:Hq; simpl.
    + rewrite Hq. done.
    + split_and!; [|done..]. rewrite Hfifo. by rewrite <- app_assoc.
  - split_and!; [done|lia| |done]. eapply ids_below_mono; [|exact Hids]. lia.
Qed.

(** C8, as the code has it. The store checks no id: uniqueness comes from
    [next_task_id] alone. In every history of a new store made of appends of
    tasks that take their id from [next_task_id()] when appended, of pops and
    of further [next_task_id()] calls, no two tasks held share a [task_id],
    no two tasks ever appended share one, and the next task appended takes an
    id that no task, held or removed, has carried. *)
Theorem C8_fresh_ids_never_shared (ops : list driver_op) :
  let hi := driver_run ops in
  NoDup (map task_id (tasks (store hi)))
  ∧ NoDup (map task_id (appended hi))
  ∧ (∀ name, ∃ t,
       tasks (store (driver_run (ops ++ [AppendNew name]))) = tasks (store hi) ++ [t]
       ∧ task_name t = name
       ∧ task_id t ∉ map task_id (appended hi)).
Proof.
  intros hi. destruct (driver_run_inv ops) as (Hfifo & Hpos & Hids & Hnd).
  fold hi in Hfifo, Hpos, Hids, Hnd.
  split_and!; [|done|].
  - rewrite Hfifo, map_app in Hnd. by apply NoDup_app in Hnd as (_ & _ & ?).
  - intros name. rewrite driver_run_snoc. fold hi. simpl.
    eexists. split_and!; [done..|]. simpl. by apply ids_below_fresh.
Qed.

(** C8 as stated fails: a prioritization run stores the ids the oracle
    wrote, here the id "1" twice; and [append] takes the same task twice. *)
Lemma C8_shared_task_id :
  (∃ w t1 t2,
     prioritization_agent trip (startup trip [lines ["1. Pack bags"; "1. Book flight"]%string])
       = Ret (tt, w)
     ∧ tasks (tasks_storage w) = [t1; t2]
     ∧ task_id t1 = task_id t2
     ∧ ¬ NoDup (map task_id (tasks (tasks_storage w))))
  ∧ ¬ NoDup (map task_id (tasks (append task_a (append task_a new_storage)))).
Proof.
  split.
  - eexists _, _, _. split_and!; [vm_compute; reflexivity | reflexivity | reflexivity |].
    vm_compute. intros Hnd. apply NoDup_cons in Hnd as [Hnotin _].
    apply Hnotin. apply list_elem_of_here.
  - vm_compute. intros Hnd. apply NoDup_cons in Hnd as [Hnotin _].
    apply Hnotin. apply list_elem_of_here.
Qed.

(** ** Strings *)

Lemma cut_None sep s : cut sep s = None ↔ sep ∉ s.
Proof.
  induction s as [|c s IH]; simpl.
  - split; [intros _; apply not_elem_of_nil | done].
  - destruct (N.eqb_spec c sep) as [->|Hne].
    + split; [done|]. intros Hnotin. exfalso. apply Hnotin, list_elem_of_here.
    + destruct (cut sep s) as [[a b]|].
      * split; [done|]. intros Hnotin. exfalso.
        apply not_elem_of_cons in Hnotin as [_ Hnotin]. by apply IH in Hnotin.
      * split; [|done]. intros _. apply not_elem_of_cons. split; [done|].
        by apply IH.
Qed.

Lemma cut_Some sep s a b :
  cut sep s = Some (a, b) → s = a ++ sep :: b ∧ sep ∉ a.
Proof.
  revert a. induction s as [|c s IH]; intros a; simpl; [done|].
  destruct (N.eqb_spec c sep) as [->|Hne].
  - intros [= <- <-]. split; [done | apply not_elem_of_nil].
  - destruct (cut sep s) as [[a' b']|]; [|done].
    intros [= <- <-]. destruct (IH a' eq_refl) as [-> Hnotin].
    split; [done|]. apply not_elem_of_cons. split; [done|done].
Qed.

Lemma cut_app sep a b : sep ∉ a → cut sep (a ++ sep :: b) = Some (a, b).
Proof.
  induction a as [|c a IH]; intros Hnotin; simpl.
  - by rewrite N.eqb_refl.
  - apply not_elem_of_cons in Hnotin as [Hne Hnotin].
    destruct (N.eqb_spec c sep) as [->|_]; [done|]. by rewrite IH.
Qed.

Lemma split_no_sep sep s : contains sep s = false → split sep s = [s].
Proof.
  induction s as [|c s IH]; simpl; [done|].
  rewrite (N.eqb_sym sep c). destruct (c =? sep)%N; simpl; [done|].
  intros Hs. by rewrite IH.
Qed.

Section nonspace.
Context (x : N) (Hx : is_space x = false).

Lemma lstrip_app a b : lstrip (a ++ x :: b) = lstrip a ++ x :: b.
Proof using Hx.
  induction a as [|c a IH]; simpl.
  - by rewrite Hx.
  - by destruct (is_space c).
Qed.

Lemma rstrip_cons_nonspace s : rstrip (x :: s) = x :: rstrip s.
Proof using Hx. simpl. rewrite Hx. by destruct (rstrip s). Qed.

Lemma rstrip_app a b : rstrip (a ++ x :: b) = a ++ x :: rstrip b.
Proof using Hx.
  induction a as [|c a IH].
  - by apply rstrip_cons_nonspace.
  - change (rstrip (c :: (a ++ x :: b))
            = c :: (a ++ x :: rstrip b)).
    simpl rstrip at 1. rewrite IH. by destruct a.
Qed.

End nonspace.

Lemma lstrip_suffix s : ∃ k, s = k ++ lstrip s.
Proof.
  induction s as [|c s [k IH]]; [by exists []|]. simpl.
  destruct (is_space c); [|by exists []].
  exists (c :: k). simpl. by rewrite <- IH.
Qed.

Lemma rstrip_prefix s : ∃ k, s = rstrip s ++ k.
Proof.
  induction s as [|c s [k IH]]; [by exists []|]. simpl.
  destruct (rstrip s) as [|r rs] eqn:Hr.
  - destruct (is_space c); [by exists (c :: s)|]. exists k. simpl in *. congruence.
  - exists k. simpl in *. congruence.
Qed.

Lemma strip_not_elem_of x s : x ∉ s → x ∉ strip s.
Proof.
  intros Hnotin Hin. apply Hnotin. unfold strip in Hin.
  destruct (lstrip_suffix s) as [k1 Hk1].
  destruct (rstrip_prefix (lstrip s)) as [k2 Hk2].
  rewrite Hk1, Hk2. rewrite !elem_of_app. auto.
Qed.

Lemma lstrip_idemp s : lstrip (lstrip s) = lstrip s.
Proof.
  induction s as [|c s IH]; [done|]. simpl.
  destruct (is_space c) eqn:Hc; [done|]. simpl. by rewrite Hc.
Qed.

Lemma rstrip_idemp s : rstrip (rstrip s) = rstrip s.
Proof.
  induction s as [|c s IH]; [done|]. simpl.
  destruct (rstrip s) as [|r rs] eqn:Hr.
  - destruct (is_space c) eqn:Hc; [done|]. simpl. by rewrite Hc.
  - change (rstrip (c :: r :: rs)) with
      (match rstrip (r :: rs) with
       | [] => if is_space c then [] else [c]
       | y :: ys => c :: y :: ys
       end).
    by rewrite IH.
Qed.

Lemma lstrip_rstrip s : lstrip (rstrip s) = rstrip (lstrip s).
Proof.
  induction s as [|c s IH]; [done|].
  destruct (is_space c) eqn:Hc.
  - simpl. rewrite Hc. rewrite <- IH.
    destruct (rstrip s) as [|r rs]; simpl; by rewrite ?Hc.
  - rewrite rstrip_cons_nonspace by done. simpl. rewrite Hc.
    by rewrite rstrip_cons_nonspace.
Qed.

Lemma strip_lstrip s : strip (lstrip s) = strip s.
Proof. unfold strip. by rewrite lstrip_idemp. Qed.

Lemma strip_rstrip s : strip (rstrip s) = strip s.
Proof. unfold strip. by rewrite <- !lstrip_rstrip, rstrip_idemp. Qed.

Lemma is_space_dot : is_space dot = false.
Proof. reflexivity. Qed.

(** Splitting a stripped line on its first [.] is splitting the line
    itself, up to the blanks the code strips from the parts anyway. *)
Lemma cut_strip line :
  cut dot (strip line) =
    match cut dot line with
    | Some (a, b) => Some (lstrip a, rstrip b)
    | None => None
    end.
Proof.
  destruct (cut dot line) as [[a b]|] eqn:Hcut.
  - apply cut_Some in Hcut as [-> Hnotin]. unfold strip.
    rewrite lstrip_app, rstrip_app by apply is_space_dot.
    apply cut_app. intros Hin. apply Hnotin.
    destruct (lstrip_suffix a) as [k Hk]. rewrite Hk.
    apply elem_of_app. by right.
  - apply cut_None. apply strip_not_elem_of. by apply cut_None.
Qed.

Lemma parse_task_string_spec acc line :
  parse_task_string acc line = acc ++ from_option (λ t, [t]) [] (parse_line line).
Proof.
  unfold parse_task_string, split1, parse_line. rewrite cut_strip.
  destruct (cut dot line) as [[a b]|]; simpl.
  - by rewrite strip_lstrip, strip_rstrip.
  - by rewrite app_nil_r.
Qed.

Lemma fold_parse_task_string new_tasks acc :
  fold_left parse_task_string new_tasks acc = acc ++ omap parse_line new_tasks.
Proof.
  revert acc. induction new_tasks as [|line new_tasks IH]; intros acc; simpl.
  - by rewrite app_nil_r.
  - rewrite IH, parse_task_string_spec.
    destruct (parse_line line); simpl; by rewrite <- ?app_assoc, ?app_nil_r.
Qed.

(** ** Prioritization *)

(** A prioritization run, spelled out: it returns as soon as the oracle
    answers. *)
Lemma prioritization_agent_run cfg w response rest :
  oracle w = response :: rest →
  prioritization_agent cfg w =
    Ret (tt,
         {| heap := heap w; thought_tree := thought_tree w;
            tasks_storage :=
              {| tasks := parsed_tasks response;
                 task_id_counter := (task_id_counter (tasks_storage w) + 1)%Z |};
            index := index w; oracle := rest;
            asked := asked w ++
              [PrioritizationPrompt (get_task_names (tasks_storage w)) (OBJECTIVE cfg)
                 (task_id_counter (tasks_storage w) + 1)] |}).
Proof.
  intros Horacle.
  unfold prioritization_agent, bind, tasks_storage_get_task_names,
    tasks_storage_next_task_id, openai_call, tasks_storage_replace.
  simpl. rewrite Horacle. unfold set_tasks_storage, replace. simpl.
  rewrite fold_parse_task_string. simpl. unfold parsed_tasks.
  destruct (contains nl response) eqn:Hnl; [done|].
  by rewrite split_no_sep.
Qed.

(** C2. Whatever text the oracle answers, [prioritization_agent] returns
    and leaves in the store exactly the tasks of the answer's lines that
    split in two on their first [.] (id: the part before, stripped; name: the
    part after, stripped), in the order of the lines, every other line
    dropped and the former contents gone; it draws one id for the prompt
    and touches nothing else. With the answer
    "2. Pack bags\n3. Book flight\nNOISE LINE\n4. Confirm hotel" and a store
    whose [next_task_id()] is 2, the store ends with exactly the three tasks
    of ids "2", "3" and "4". *)
Theorem C2_prioritization_parses_and_replaces :
  (∀ cfg w response rest,
     oracle w = response :: rest →
     ∃ w',
       prioritization_agent cfg w = Ret (tt, w')
       ∧ tasks (tasks_storage w') = parsed_tasks response
       ∧ task_id_counter (tasks_storage w') = (task_id_counter (tasks_storage w) + 1)%Z
       ∧ heap w' = heap w ∧ thought_tree w' = thought_tree w
       ∧ index w' = index w ∧ oracle w' = rest
       ∧ asked w' = asked w ++
           [PrioritizationPrompt (get_task_names (tasks_storage w)) (OBJECTIVE cfg)
              (task_id_counter (tasks_storage w) + 1)])
  ∧ parsed_tasks noisy_response = noisy_tasks
  ∧ fst (next_task_id (tasks_storage (startup trip [noisy_response]))) = 2%Z
  ∧ ∃ w', prioritization_agent trip (startup trip [noisy_response]) = Ret (tt, w')
          ∧ tasks (tasks_storage w') = noisy_tasks
          ∧ map task_id (tasks (tasks_storage w'))
            = [PyStr (lit "2"); PyStr (lit "3"); PyStr (lit "4")].
Proof.
  split_and!.
  - intros cfg w response rest Horacle.
    eexists. split; [by apply prioritization_agent_run|]. done.
  - by vm_compute.
  - by vm_compute.
  - eexists. split_and!; by vm_compute.
Qed.

Lemma C2_prioritization_parses_and_replaces_witness :
  ∃ w', prioritization_agent trip (startup trip [noisy_response; lit "later"]) = Ret (tt, w')
        ∧ tasks (tasks_storage w') = parsed_tasks noisy_response
        ∧ oracle w' = [lit "later"].
Proof.
  destruct (proj1 C2_prioritization_parses_and_replaces trip
              (startup trip [noisy_response; lit "later"])
              noisy_response [lit "later"])
    as (w' & Hrun & Htasks & _ & _ & _ & _ & Horacle & _); [reflexivity|].
  exists w'. split_and!; assumption.
Defined.

(** ** The thought tree *)

Lemma pop_snoc {A} (l : list A) (x : A) : pop (l ++ [x]) = Some (l, x).
Proof. induction l as [|y l IH]; simpl; [done|]. by rewrite IH. Qed.

Lemma add_thought_length name par h t :
  length (add_thought name par h t).1.2 = S (length h).
Proof.
  unfold add_thought. destruct par as [p|]; simpl.
  - rewrite length_alter, length_app. simpl. lia.
  - rewrite length_app. simpl. lia.
Qed.

Lemma add_thought_wf name par h t :
  heap_wf h t →
  (∀ p, par = Some p → p < length h) →
  heap_wf (add_thought name par h t).1.2 (add_thought name par h t).2.
Proof.
  intros [Hch Hroot] Hpar. split.
  - intros i th. rewrite add_thought_length.
    unfold add_thought. destruct par as [p|]; simpl.
    + specialize (Hpar p eq_refl).
      destruct (decide (p = i)) as [->|Hne].
      * rewrite list_lookup_alter_eq, lookup_app_l by done.
        destruct (h !! i) as [th0|] eqn:Hi; [|done]. intros [= <-]. simpl.
        apply Forall_app. split.
        -- eapply Forall_impl; [by eapply Hch|]. simpl. lia.
        -- apply Forall_cons. split; [lia | apply Forall_nil_2].
      * rewrite list_lookup_alter_ne by done. intros Hi.
        apply lookup_snoc_Some in Hi as [[Hlt Hi]|[-> <-]].
        -- eapply Forall_impl; [by eapply Hch|]. simpl. lia.
        -- apply Forall_nil_2.
    + intros Hi. apply lookup_snoc_Some in Hi as [[Hlt Hi]|[-> <-]].
      * eapply Forall_impl; [by eapply Hch|]. simpl. lia.
      * apply Forall_nil_2.
  - intros r. rewrite add_thought_length.
    unfold add_thought. destruct par as [p|]; simpl.
    + intros Hr. apply Hroot in Hr. lia.
    + intros [= <-]. lia.
Qed.

Lemma built_wf h t : built h t → heap_wf h t.
Proof.
  induction 1 as [|name par h t _ IH Hpar].
  - split; [done|done].
  - by apply add_thought_wf.
Qed.

Lemma pop_None {A} (l : list A) : pop l = None ↔ l = [].
Proof.
  destruct l as [|x l]; simpl; [done|].
  by destruct (pop l) as [[r y]|].
Qed.

(** The [return None] after the loop is never reached: the stack starts
    with one entry, and a thought that is popped and does not end the loop
    pushes its children, of which there is one at least. *)
Lemma get_next_thought_loop_not_None fuel h stack :
  stack ≠ [] → get_next_thought_loop fuel h stack ≠ Ret None.
Proof.
  revert stack. induction fuel as [|fuel IH]; intros stack Hne; simpl; [done|].
  destruct (pop stack) as [[stack' [thought|]]|] eqn:Hpop.
  - destruct (h !! thought) as [th|]; [|done].
    destruct (children th) as [|c cs]; [done|].
    apply IH. simpl. by destruct stack'.
  - done.
  - by apply pop_None in Hpop.
Qed.

Lemma get_next_thought_not_None h t : get_next_thought h t ≠ Ret None.
Proof. by apply get_next_thought_loop_not_None. Qed.

Lemma newest_leaf_fuel fuel fuel' h r leaf :
  newest_leaf fuel h r = Some leaf → fuel ≤ fuel' → newest_leaf fuel' h r = Some leaf.
Proof.
  revert fuel' r. induction fuel as [|fuel IH]; intros fuel' r; simpl; [done|].
  intros Hnew Hle. destruct fuel' as [|fuel']; [lia|]. simpl.
  destruct (h !! r) as [th|]; [|done].
  destruct (last (children th)) as [c|]; [|done].
  apply IH; [done | lia].
Qed.

Lemma find_app_Some {A} (p : A → bool) (l1 l2 : list A) (x : A) :
  List.find p l1 = Some x → List.find p (l1 ++ l2) = Some x.
Proof.
  induction l1 as [|y l1 IH]; simpl; [done|]. by destruct (p y).
Qed.

Section well_formed.
Context (h : list Thought) (t : ThoughtTree) (Hwf : heap_wf h t).

(** The loop, started with [r] on top of the stack, returns the leaf found
    by stepping into the last child. *)
Lemma get_next_thought_loop_newest fuel stack r :
  r < length h → length h - r ≤ fuel →
  ∃ leaf,
    get_next_thought_loop fuel h (stack ++ [Some r]) = Ret (Some leaf)
    ∧ newest_leaf fuel h r = Some leaf
    ∧ is_leaf h leaf = true
    ∧ r ≤ leaf < length h.
Proof using Hwf.
  destruct Hwf as [Hch _]. revert stack r.
  induction fuel as [|fuel IH]; intros stack r Hr Hfuel; [lia|].
  simpl. rewrite pop_snoc.
  destruct (lookup_lt_is_Some_2 h r Hr) as [th Hth]. rewrite Hth.
  destruct (children th) as [|c0 cs0] eqn:Hcs.
  - exists r. unfold is_leaf. rewrite Hth, Hcs. split_and!; [done..|lia|done].
  - assert (c0 :: cs0 ≠ []) as Hne by done.
    apply last_is_Some in Hne as [c Hlast].
    pose proof Hlast as Hsplit. apply last_Some in Hsplit as [cs' Hcs'].
    change (Some c0 :: map Some cs0) with (map Some (c0 :: cs0)).
    rewrite Hlast, Hcs'.
    specialize (Hch r th Hth). rewrite Hcs, Hcs' in Hch.
    apply Forall_app in Hch as [_ Hc]. apply Forall_cons in Hc as [Hc _].
    rewrite map_app, app_assoc. simpl.
    destruct (IH (stack ++ map Some cs') c) as (leaf & Hloop & Hnew & Hleaf & Hrange);
      [lia..|].
    exists leaf. split_and!; [done..|lia|lia].
Qed.

(** Stepping into the last child finds the first leaf of the depth-first
    order that takes the most recently added subtree first. *)
Lemma first_leaf_newest fuel r :
  r < length h → length h - r ≤ fuel →
  List.find (is_leaf h) (dfs_newest_first fuel h r) = newest_leaf fuel h r.
Proof using Hwf.
  revert r.
  induction fuel as [|fuel IH]; intros r Hr Hfuel; [lia|].
  simpl. destruct (lookup_lt_is_Some_2 h r Hr) as [th Hth]. rewrite Hth.
  simpl. unfold is_leaf at 1. rewrite Hth.
  destruct (last (children th)) as [c|] eqn:Hlast.
  - apply last_Some in Hlast as [cs' Hcs'].
    pose proof (proj1 Hwf r th Hth) as Hc. rewrite Hcs' in Hc.
    apply Forall_app in Hc as [_ Hc]. apply Forall_cons in Hc as [Hc _].
    rewrite Hcs'. destruct cs'; simpl.
    + rewrite app_nil_r. apply IH; lia.
    + rewrite rev_app_distr. simpl.
      destruct (get_next_thought_loop_newest fuel [] c)
        as (leaf & _ & Hnew & _); [lia..|].
      rewrite Hnew. apply find_app_Some. rewrite <- Hnew. apply IH; lia.
  - apply last_None in Hlast. by rewrite Hlast.
Qed.

(** The depth-first order needs no more fuel than the heap has thoughts. *)
Lemma dfs_newest_first_fuel fuel fuel' r :
  r < length h → length h - r ≤ fuel → fuel ≤ fuel' →
  dfs_newest_first fuel' h r = dfs_newest_first fuel h r.
Proof using Hwf.
  destruct Hwf as [Hch _]. revert fuel' r.
  induction fuel as [|fuel IH]; intros fuel' r Hr Hfuel Hle; [lia|].
  destruct fuel' as [|fuel']; [lia|]. simpl.
  destruct (h !! r) as [th|] eqn:Hth; [|done]. f_equal.
  specialize (Hch r th Hth).
  assert (Forall (λ c, r < c < length h) (rev (children th))) as Hrev.
  { by apply List.Forall_rev. }
  induction Hrev as [|c cs Hc _ IHcs]; simpl; [done|].
  rewrite IHcs. f_equal. apply IH; lia.
Qed.

End well_formed.

(** More fuel does not change what the stack loop answers. *)
Lemma get_next_thought_loop_fuel fuel fuel' h stack :
  get_next_thought_loop fuel h stack ≠ Diverge → fuel ≤ fuel' →
  get_next_thought_loop fuel' h stack = get_next_thought_loop fuel h stack.
Proof.
  revert fuel' stack. induction fuel as [|fuel IH]; intros fuel' stack; [done|].
  intros Hret Hle. destruct fuel' as [|fuel']; [lia|]. simpl in *.
  destruct (pop stack) as [[stack' [thought|]]|]; [|done..].
  destruct (h !! thought) as [th|]; [|done].
  destruct (children th); [done|]. apply IH; [done | lia].
Qed.

(** C5. On every tree the program can build that has a root,
    [get_next_thought] returns, and what it returns is a leaf: the thought
    the stack loop (push the root; pop; push all children of a thought that
    has some, return a thought that has none) reaches, which is the leaf
    found by stepping into the most recently added child from the root
    down, and the first leaf of the depth-first order that takes the most
    recently added subtree first. *)
Theorem C5_get_next_thought_newest_leaf (h : list Thought) (t : ThoughtTree) :
  built h t → root t ≠ None →
  ∃ r leaf th,
    root t = Some r
    ∧ get_next_thought h t = Ret (Some leaf)
    ∧ h !! leaf = Some th ∧ children th = []
    ∧ newest_leaf (length h) h r = Some leaf
    ∧ first_leaf h r = Some leaf.
Proof.
  intros Hbuilt Hroot. apply built_wf in Hbuilt as Hwf.
  destruct (root t) as [r|] eqn:Hr; [|done].
  pose proof (proj2 Hwf r Hr) as Hlt.
  destruct (get_next_thought_loop_newest h t Hwf (S (length h)) [] r)
    as (leaf & Hloop & Hnew & Hleaf & _); [lia..|].
  destruct (get_next_thought_loop_newest h t Hwf (length h) [] r)
    as (leaf' & _ & Hnew' & _); [lia..|].
  pose proof (newest_leaf_fuel _ (S (length h)) _ _ _ Hnew' (Nat.le_succ_diag_r _)) as Heq.
  rewrite Hnew in Heq. injection Heq as <-.
  unfold is_leaf in Hleaf.
  destruct (h !! leaf) as [th|] eqn:Hth; [|done].
  destruct (children th) eqn:Hcs; [|done].
  exists r, leaf, th. split_and!; try done.
  - unfold get_next_thought, get_next_thought_fuel. by rewrite Hr.
  - unfold first_leaf. rewrite <- Hnew'. apply (first_leaf_newest h t Hwf); lia.
Qed.

(** What the loop of [task_creation_agent] does to the heap: the new
    thoughts go to the end of the heap, their addresses to the end of the
    children of [p], and nothing else moves. *)
Lemma add_thoughts_spec names p h t :
  p < length h →
  add_thoughts names (Some p) h t =
    (alter (add_children (seq (length h) (length names))) p
       (h ++ new_thoughts names (Some p)), t).
Proof.
  revert h. induction names as [|name names IH]; intros h Hp; simpl.
  - rewrite app_nil_r. f_equal. symmetry. apply list_alter_id.
    intros [n pa cs]. unfold add_children. simpl. by rewrite app_nil_r.
  - rewrite IH by (rewrite length_alter, length_app; simpl; lia).
    f_equal. rewrite length_alter, length_app. simpl.
    rewrite <- alter_app_l by (rewrite length_app; simpl; lia).
    rewrite list_alter_alter_eq, <- app_assoc. simpl.
    apply list_alter_ext; [|done].
    intros [n pa cs] _. unfold add_children, add_child. simpl.
    rewrite <- app_assoc. simpl. by rewrite Nat.add_1_r.
Qed.

Lemma add_thoughts_cons name names par h t :
  add_thoughts (name :: names) par h t =
    add_thoughts names par (add_thought name par h t).1.2 (add_thought name par h t).2.
Proof.
  cbn [add_thoughts]. by destruct (add_thought name par h t) as [[r h'] t'].
Qed.

Lemma add_thoughts_built names p h t :
  built h t → p < length h →
  built (add_thoughts names (Some p) h t).1 (add_thoughts names (Some p) h t).2.
Proof.
  revert h t. induction names as [|name names IH]; intros h t Hb Hp; [done|].
  rewrite add_thoughts_cons. apply IH.
  - apply built_add; [done|]. by intros ? [= <-].
  - rewrite add_thought_length. lia.
Qed.

Lemma tree_A_built : built tree_A.1 tree_A.2.
Proof. apply (built_add (lit "A") None [] new_tree); [apply built_new | done]. Qed.

Lemma tree_ABC_built : built tree_ABC.1 tree_ABC.2.
Proof. apply add_thoughts_built; [apply tree_A_built | vm_compute; lia]. Qed.

Lemma C5_get_next_thought_newest_leaf_witness :
  ∃ th, get_next_thought tree_ABC.1 tree_ABC.2 = Ret (Some 2)
        ∧ tree_ABC.1 !! 2 = Some th
        ∧ thought_name th = lit "C" ∧ children th = []
        ∧ first_leaf tree_ABC.1 0 = Some 2.
Proof.
  destruct (C5_get_next_thought_newest_leaf tree_ABC.1 tree_ABC.2)
    as (r & leaf & th & Hroot & Hget & Hth & Hcs & Hnew & Hfirst);
    [apply tree_ABC_built | by vm_compute |].
  assert (r = 0) as -> by (vm_compute in Hroot; congruence).
  assert (leaf = 2) as -> by (vm_compute in Hnew; congruence).
  exists th. split_and!; try assumption.
  vm_compute in Hth. by injection Hth as <-.
Defined.

(** C4 as stated fails: on the tree whose root is A, [add_thought] with no
    parent returns the new thought B and makes it the root; A is no longer
    the root. *)
Lemma C4_second_root_replaces_first :
  root tree_A.2 = Some 0
  ∧ add_thought (lit "B") None tree_A.1 tree_A.2
    = (1,
       tree_A.1 ++ [{| thought_name := lit "B"; parent := None; children := [] |}],
       {| root := Some 1 |})
  ∧ root (add_thought (lit "B") None tree_A.1 tree_A.2).2 ≠ root tree_A.2.
Proof. split_and!; [reflexivity | reflexivity | by vm_compute]. Qed.

(** C4, as the code has it. A tree has one [root] field, so at most one
    root at a time, but [add_thought] with no parent never fails and never
    looks at the root: on every tree the program can build it allocates the
    new thought, makes it the root, and so replaces the root the tree had;
    the thoughts already made stay as they were. *)
Theorem C4_add_thought_without_parent_sets_root
    (name : str) (h : list Thought) (t : ThoughtTree) :
  built h t →
  add_thought name None h t
    = (length h,
       h ++ [{| thought_name := name; parent := None; children := [] |}],
       {| root := Some (length h) |})
  ∧ root (add_thought name None h t).2 ≠ root t
  ∧ (∀ r th, h !! r = Some th → (add_thought name None h t).1.2 !! r = Some th).
Proof.
  intros Hb. apply built_wf in Hb as [_ Hroot]. split_and!.
  - done.
  - simpl. intros Heq. symmetry in Heq. apply Hroot in Heq. lia.
  - intros r th Hth. simpl. by apply lookup_app_l_Some.
Qed.

Lemma C4_add_thought_without_parent_sets_root_witness :
  root (add_thought (lit "B") None tree_A.1 tree_A.2).2 = Some 1
  ∧ root (add_thought (lit "B") None tree_A.1 tree_A.2).2 ≠ root tree_A.2.
Proof.
  destruct (C4_add_thought_without_parent_sets_root (lit "B") tree_A.1 tree_A.2)
    as (Hadd & Hne & _); [apply tree_A_built|].
  split; [by rewrite Hadd | exact Hne].
Defined.

(** ** The driver loop *)

Lemma bind_Ret {A B} (m : M A) (k : A → M B) w b w'' :
  bind m k w = Ret (b, w'') ↔ ∃ a w', m w = Ret (a, w') ∧ k a w' = Ret (b, w'').
Proof.
  unfold bind. split.
  - destruct (m w) as [[a w']| | |]; [|done..]. eauto.
  - intros (a & w' & -> & Hk). done.
Qed.

Lemma keeps_ret {A} (a : A) : keeps_thoughts (ret a).
Proof. intros w a' w' [= <- <-]. done. Qed.

Lemma keeps_bind {A B} (m : M A) (k : A → M B) :
  keeps_thoughts m → (∀ a, keeps_thoughts (k a)) → keeps_thoughts (bind m k).
Proof.
  intros Hm Hk w b w'' (a & w' & Hmw & Hkw)%bind_Ret.
  destruct (Hm _ _ _ Hmw) as [Hh Ht]. destruct (Hk _ _ _ _ Hkw) as [Hh' Ht'].
  split; congruence.
Qed.

Lemma keeps_for_each {A} (xs : list A) (body : A → M unit) :
  (∀ x, keeps_thoughts (body x)) → keeps_thoughts (for_each xs body).
Proof.
  intros Hbody. induction xs as [|x xs IH]; simpl.
  - apply keeps_ret.
  - apply keeps_bind; [apply Hbody | intros _; apply IH].
Qed.

Lemma keeps_openai_call prompt : keeps_thoughts (openai_call prompt).
Proof.
  intros w a w'. unfold openai_call. destruct (oracle w); [done|].
  by intros [= <- <-].
Qed.

Lemma keeps_index_upsert call : keeps_thoughts (index_upsert call).
Proof. intros w a w'. unfold index_upsert. by intros [= <- <-]. Qed.

Lemma keeps_attr {A} (f : Thought → A) thought : keeps_thoughts (attr f thought).
Proof.
  intros w a w'. unfold attr. destruct thought as [r|]; [|done].
  destruct (heap w !! r); [|done]. by intros [= <- <-].
Qed.

Lemma keeps_tasks_storage_append task : keeps_thoughts (tasks_storage_append task).
Proof. intros w a w'. unfold tasks_storage_append. by intros [= <- <-]. Qed.

Lemma keeps_tasks_storage_replace ts : keeps_thoughts (tasks_storage_replace ts).
Proof. intros w a w'. unfold tasks_storage_replace. by intros [= <- <-]. Qed.

Lemma keeps_tasks_storage_popleft : keeps_thoughts tasks_storage_popleft.
Proof.
  intros w a w'. unfold tasks_storage_popleft, popleft.
  destruct (tasks (tasks_storage w)); [done|]. by intros [= <- <-].
Qed.

Lemma keeps_tasks_storage_next_task_id : keeps_thoughts tasks_storage_next_task_id.
Proof. intros w a w'. unfold tasks_storage_next_task_id. simpl. by intros [= <- <-]. Qed.

Lemma keeps_tasks_storage_get_task_names : keeps_thoughts tasks_storage_get_task_names.
Proof. intros w a w'. unfold tasks_storage_get_task_names. by intros [= <- <-]. Qed.

Lemma keeps_run_get_next_thought : keeps_thoughts run_get_next_thought.
Proof.
  intros w a w'. unfold run_get_next_thought.
  destruct (get_next_thought (heap w) (thought_tree w)); [|done..].
  by intros [= <- <-].
Qed.

Create HintDb keeps.
#[local] Hint Resolve keeps_ret keeps_openai_call keeps_index_upsert keeps_attr
  keeps_tasks_storage_append keeps_tasks_storage_replace keeps_tasks_storage_popleft
  keeps_tasks_storage_next_task_id keeps_tasks_storage_get_task_names
  keeps_run_get_next_thought : keeps.

Ltac keeps :=
  repeat first
    [ apply keeps_bind; [|intros ?]
    | apply keeps_for_each; intros ?
    | solve [auto with keeps] ].

Lemma keeps_prioritization_agent cfg : keeps_thoughts (prioritization_agent cfg).
Proof. unfold prioritization_agent. keeps. Qed.

Lemma keeps_execution_agent objective thought :
  keeps_thoughts (execution_agent objective thought).
Proof. unfold execution_agent, explore_thought. keeps. Qed.

(** [task_creation_agent] is the one step of a turn that touches the
    thoughts, and it works on the root. *)
Lemma task_creation_agent_Ret objective result task_description w new_tasks w' :
  task_creation_agent objective result task_description w = Ret (new_tasks, w') →
  ∃ r th,
    root (thought_tree w) = Some r ∧ heap w !! r = Some th
    ∧ new_tasks = generate_tasks_based_on_thought th
    ∧ w' = set_thoughts
             (add_thoughts new_tasks (Some r) (heap w) (thought_tree w)).1
             (add_thoughts new_tasks (Some r) (heap w) (thought_tree w)).2 w.
Proof.
  unfold task_creation_agent, attr.
  destruct (root (thought_tree w)) as [r|] eqn:Hr; [|done].
  destruct (heap w !! r) as [th|] eqn:Hth; [|done].
  destruct (add_thoughts _ _ _ _) as [h t] eqn:Hadd.
  intros [= <- <-]. exists r, th. by rewrite Hadd.
Qed.

(** A turn of the loop that returns has grown the tree by the children the
    task map gives for the root, under the root. *)
Lemma main_body_thoughts cfg w w' :
  main_body cfg w = Ret (tt, w') →
  ∃ r th,
    root (thought_tree w) = Some r ∧ heap w !! r = Some th
    ∧ heap w' = (add_thoughts (generate_tasks_based_on_thought th) (Some r)
                   (heap w) (thought_tree w)).1
    ∧ thought_tree w' = (add_thoughts (generate_tasks_based_on_thought th) (Some r)
                           (heap w) (thought_tree w)).2.
Proof.
  unfold main_body, main_steps, main_execute_and_create.
  intros (cur & w1 & H1 & H)%bind_Ret.
  apply keeps_run_get_next_thought in H1 as [Hh1 Ht1].
  apply bind_Ret in H as ([] & w2 & H & Hprio).
  assert (heap w' = heap w2 ∧ thought_tree w' = thought_tree w2) as [Hh' Ht'].
  { destruct (JOIN_EXISTING_OBJECTIVE cfg).
    - by eapply keeps_ret.
    - by eapply keeps_prioritization_agent. }
  apply bind_Ret in H as (task & wa & Ha & H).
  apply keeps_tasks_storage_popleft in Ha as [Hha Hta].
  apply bind_Ret in H as (result & wb & Hb & H).
  apply keeps_execution_agent in Hb as [Hhb Htb].
  apply bind_Ret in H as ([] & wc & Hc & H).
  apply keeps_index_upsert in Hc as [Hhc Htc].
  apply bind_Ret in H as (td & wd & Hd & H).
  apply keeps_attr in Hd as [Hhd Htd].
  apply bind_Ret in H as (new_tasks & we & He & H).
  apply task_creation_agent_Ret in He as (r & th & Hr & Hth & -> & ->).
  assert (heap w2 = heap (set_thoughts
            (add_thoughts (generate_tasks_based_on_thought th) (Some r)
               (heap wd) (thought_tree wd)).1
            (add_thoughts (generate_tasks_based_on_thought th) (Some r)
               (heap wd) (thought_tree wd)).2 wd)
          ∧ thought_tree w2 = thought_tree (set_thoughts
            (add_thoughts (generate_tasks_based_on_thought th) (Some r)
               (heap wd) (thought_tree wd)).1
            (add_thoughts (generate_tasks_based_on_thought th) (Some r)
               (heap wd) (thought_tree wd)).2 wd)) as [Hh2 Ht2].
  { eapply keeps_for_each; [|exact H]. intros name. keeps. }
  simpl in Hh2, Ht2.
  assert (heap wd = heap w) as Hhw by congruence.
  assert (thought_tree wd = thought_tree w) as Htw by congruence.
  rewrite Hhw, Htw in *.
  exists r, th. split_and!; congruence.
Qed.

(** The loop of [main] over the new task names: one [next_task_id()] and
    one [append] per name. *)
Lemma for_each_new_tasks names w :
  for_each names (λ task_name,
      c <- tasks_storage_next_task_id ;;
      tasks_storage_append {| task_id := PyInt c; task_name := task_name |}) w
  = Ret (tt, set_tasks_storage
               {| tasks := tasks (tasks_storage w)
                           ++ new_tasks_from (task_id_counter (tasks_storage w)) names;
                  task_id_counter :=
                    (task_id_counter (tasks_storage w) + Z.of_nat (length names))%Z |}
               w).
Proof.
  revert w. induction names as [|name names IH]; intros w.
  - destruct w as [h t [ts c] ix o a]. unfold set_tasks_storage. simpl.
    by rewrite app_nil_r, Z.add_0_r.
  - cbn [for_each]. unfold bind at 1.
    unfold bind at 1, tasks_storage_next_task_id, tasks_storage_append. simpl.
    rewrite IH. unfold set_tasks_storage. simpl.
    rewrite <- app_assoc. simpl. do 4 f_equal. lia.
Qed.

(** One turn up to the new tasks, spelled out. *)
Lemma main_execute_and_create_run cfg w cur thc r th task rest result more :
  heap w !! cur = Some thc →
  root (thought_tree w) = Some r → heap w !! r = Some th →
  tasks (tasks_storage w) = task :: rest →
  oracle w = result :: more →
  let names := generate_tasks_based_on_thought th in
  let c := task_id_counter (tasks_storage w) in
  main_execute_and_create cfg (Some cur) w =
    Ret (tt,
         {| heap := alter (add_children (seq (length (heap w)) (length names))) r
                      (heap w ++ new_thoughts names (Some r));
            thought_tree := thought_tree w;
            tasks_storage :=
              {| tasks := rest ++ new_tasks_from c names;
                 task_id_counter := (c + Z.of_nat (length names))%Z |};
            index := index w ++
              [{| upsert_vectors :=
                    [(lit "result_" ++ format (task_id task),
                      get_ada_embedding result,
                      {| md_task := task_name task; md_result := result |})];
                  upsert_kwargs :=
                    [("nmespace"%string, KwStr (OBJECTIVE_PINECONE_COMPAT cfg))] |}];
            oracle := more;
            asked := asked w ++ [ExplorePrompt (thought_name thc)] |}).
Proof.
  intros Hcur Hr Hth Htasks Horacle names c.
  assert (r < length (heap w)) as Hlt by (by eapply lookup_lt_Some).
  unfold main_execute_and_create.
  unfold bind at 1. unfold tasks_storage_popleft, popleft. rewrite Htasks.
  unfold bind at 1. unfold execution_agent, explore_thought.
  unfold bind at 1. unfold bind at 1. unfold attr at 1. simpl. rewrite Hcur.
  unfold openai_call. simpl. rewrite Horacle. unfold ret.
  unfold bind at 1. unfold index_upsert. simpl.
  unfold bind at 1. unfold attr at 1. simpl. rewrite Hcur.
  unfold bind at 1. unfold task_creation_agent, attr. simpl. rewrite Hr, Hth.
  fold names. rewrite add_thoughts_spec by done.
  rewrite for_each_new_tasks. reflexivity.
Qed.

Lemma seeded_built cfg answers :
  built (heap (seeded cfg answers)) (thought_tree (seeded cfg answers)).
Proof.
  unfold seeded, main_seed, startup. cbn [heap].
  destruct (add_thought (INITIAL_TASK cfg) None [] new_tree) as [[r h] t] eqn:Hadd.
  cbn. pose proof (built_add (INITIAL_TASK cfg) None [] new_tree built_new) as Hb.
  rewrite Hadd in Hb. apply Hb. done.
Qed.

(** A turn of the loop that returns keeps the tree one the program can
    build, with the same root. *)
Lemma main_body_built cfg w w' :
  built (heap w) (thought_tree w) →
  main_body cfg w = Ret (tt, w') →
  built (heap w') (thought_tree w') ∧ thought_tree w' = thought_tree w.
Proof.
  intros Hb (r & th & Hr & Hth & -> & ->)%main_body_thoughts.
  assert (r < length (heap w)) as Hlt by (by eapply lookup_lt_Some).
  split; [by apply add_thoughts_built|].
  by rewrite add_thoughts_spec.
Qed.

Lemma new_tasks_from_names c names :
  map task_name (new_tasks_from c names) = names.
Proof.
  revert c. induction names as [|name names IH]; intros c; simpl; [done|].
  by rewrite IH.
Qed.

(** On a tree the program can build, a turn of the loop returns as soon as
    the store holds a task and the oracle answers twice; the world it
    leaves is spelled out. *)
Lemma main_body_run cfg w r th task rest result response more :
  built (heap w) (thought_tree w) →
  root (thought_tree w) = Some r → heap w !! r = Some th →
  tasks (tasks_storage w) = task :: rest →
  oracle w = result :: response :: more →
  JOIN_EXISTING_OBJECTIVE cfg = false →
  let names := generate_tasks_based_on_thought th in
  let c := task_id_counter (tasks_storage w) in
  ∃ cur thc,
    get_next_thought (heap w) (thought_tree w) = Ret (Some cur)
    ∧ heap w !! cur = Some thc ∧ children thc = []
    ∧ main_body cfg w =
        Ret (tt,
             {| heap := alter (add_children (seq (length (heap w)) (length names))) r
                          (heap w ++ new_thoughts names (Some r));
                thought_tree := thought_tree w;
                tasks_storage :=
                  {| tasks := parsed_tasks response;
                     task_id_counter := (c + Z.of_nat (length names) + 1)%Z |};
                index := index w ++
                  [{| upsert_vectors :=
                        [(lit "result_" ++ format (task_id task),
                          get_ada_embedding result,
                          {| md_task := task_name task; md_result := result |})];
                      upsert_kwargs :=
                        [("nmespace"%string, KwStr (OBJECTIVE_PINECONE_COMPAT cfg))] |}];
                oracle := more;
                asked := asked w ++
                  [ExplorePrompt (thought_name thc);
                   PrioritizationPrompt (map task_name rest ++ names) (OBJECTIVE cfg)
                     (c + Z.of_nat (length names) + 1)] |}).
Proof.
  intros Hb Hr Hth Htasks Horacle Hjoin names c.
  apply built_wf in Hb as Hwf.
  assert (r < length (heap w)) as Hlt by (by eapply lookup_lt_Some).
  destruct (get_next_thought_loop_newest (heap w) (thought_tree w) Hwf
              (S (length (heap w))) [] r)
    as (cur & Hloop & _ & Hleaf & _); [done|lia|].
  unfold is_leaf in Hleaf.
  destruct (heap w !! cur) as [thc|] eqn:Hcur; [|done].
  destruct (children thc) eqn:Hcs; [|done].
  assert (get_next_thought (heap w) (thought_tree w) = Ret (Some cur)) as Hget.
  { unfold get_next_thought, get_next_thought_fuel. by rewrite Hr. }
  exists cur, thc. split_and!; [done..|].
  unfold main_body, main_steps. unfold bind at 1.
  unfold run_get_next_thought. rewrite Hget.
  unfold bind at 1.
  rewrite (main_execute_and_create_run cfg w cur thc r th task rest result
             (response :: more)) by done.
  rewrite Hjoin. fold names. fold c.
  erewrite prioritization_agent_run by reflexivity.
  cbn [heap thought_tree tasks_storage index oracle asked tasks task_id_counter].
  unfold get_task_names.
  cbn [heap thought_tree tasks_storage index oracle asked tasks task_id_counter].
  by rewrite map_app, new_tasks_from_names, <- app_assoc.
Qed.

(** A turn leaves every thought but the root as it was: the thought it
    selected, when that is not the root, gets no child. *)
Lemma main_body_other_thoughts cfg w w' r i :
  main_body cfg w = Ret (tt, w') →
  root (thought_tree w) = Some r → i ≠ r → i < length (heap w) →
  heap w' !! i = heap w !! i.
Proof.
  intros (r' & th & Hr' & Hth & -> & _)%main_body_thoughts Hr Hne Hlt.
  rewrite Hr in Hr'. injection Hr' as <-.
  assert (r < length (heap w)) as Hrlt by (by eapply lookup_lt_Some).
  rewrite add_thoughts_spec by done. simpl.
  rewrite list_lookup_alter_ne by done. by rewrite lookup_app_l.
Qed.

(** The root never changes in a turn, so the loop of [main], once entered
    with a root, returns for no number of turns: it goes on, or stops on an
    exception. *)
Lemma main_loop_never_returns cfg n w w' :
  root (thought_tree w) ≠ None → main_loop cfg n w ≠ Ret (tt, w').
Proof.
  revert w. induction n as [|n IH]; intros w Hroot; unfold main_loop; simpl.
  - unfold is_thought_tree_empty. by destruct (root (thought_tree w)).
  - unfold is_thought_tree_empty at 1.
    destruct (root (thought_tree w)) as [r|] eqn:Hr; [|done]. simpl.
    intros ([] & w1 & Hbody & Hloop)%bind_Ret.
    apply (IH w1); [|exact Hloop].
    apply main_body_thoughts in Hbody as (r' & th & _ & Hth & _ & ->).
    assert (r' < length (heap w)) as Hlt by (by eapply lookup_lt_Some).
    rewrite add_thoughts_spec by done. simpl. by rewrite Hr.
Qed.

(** C6 as stated fails: on the empty tree [get_next_thought] pops the
    absent root and reads its [children]. *)
Lemma C6_empty_tree_raises :
  is_thought_tree_empty new_tree = true
  ∧ get_next_thought [] new_tree = Raise AttributeError
  ∧ get_next_thought [] new_tree ≠ Ret None.
Proof. split_and!; [reflexivity | reflexivity | by vm_compute]. Qed.

(** C6, as the code has it. On a tree without a root [get_next_thought]
    raises [AttributeError], whatever the heap; the driver loop tests
    [is_thought_tree_empty] before each call, the test holds on such a tree,
    and the loop ends there without calling [get_next_thought]. *)
Theorem C6_empty_tree_is_guarded (h : list Thought) (t : ThoughtTree) :
  root t = None →
  get_next_thought h t = Raise AttributeError
  ∧ is_thought_tree_empty t = true
  ∧ (∀ cfg n w, thought_tree w = t → main_loop cfg n w = Ret (tt, w)).
Proof.
  intros Hroot. split_and!.
  - unfold get_next_thought, get_next_thought_fuel. by rewrite Hroot.
  - unfold is_thought_tree_empty. by rewrite Hroot.
  - intros cfg n w Hw. unfold main_loop, is_thought_tree_empty.
    destruct n; simpl; by rewrite Hw, Hroot.
Qed.

Lemma C6_empty_tree_is_guarded_witness :
  get_next_thought [] new_tree = Raise AttributeError
  ∧ main_loop trip 3 (startup trip []) = Ret (tt, startup trip []).
Proof.
  destruct (C6_empty_tree_is_guarded [] new_tree) as (Hget & _ & Hloop);
    [reflexivity|].
  split; [exact Hget | by apply Hloop].
Defined.

(** C1, evaluated where it fails. The root INITIAL_TASK gets its three
    children in the first turn. The second turn selects the leaf
    "Develop plan" (thought 3), for which the task map has "Outline steps",
    "Assign responsibilities" and "Set timeline"; yet that thought ends the
    turn without children, and the root has three more children (thoughts 4
    to 6), named after the root's entry of the task map; the three tasks
    the turn appends (the last three names of the list sent for
    reprioritization) carry those names too. *)
Theorem C1_children_go_under_the_root :
  ∃ w1 w2 selected,
    turns staged 1 (seeded staged staged_answers) = Ret (tt, w1)
    ∧ get_next_thought (heap w1) (thought_tree w1) = Ret (Some 3)
    ∧ heap w1 !! 3 = Some selected
    ∧ thought_name selected = lit "Develop plan"
    ∧ generate_tasks_based_on_thought selected
      = [lit "Outline steps"; lit "Assign responsibilities"; lit "Set timeline"]
    ∧ main_body staged w1 = Ret (tt, w2)
    ∧ children <$> heap w2 !! 3 = Some []
    ∧ root (thought_tree w2) = Some 0
    ∧ children <$> heap w2 !! 0 = Some [1; 2; 3; 4; 5; 6]
    ∧ map thought_name (drop 4 (heap w2))
      = [lit "Define problem"; lit "Gather resources"; lit "Develop plan"]
    ∧ Forall (λ th, thought_name th ≠ lit "Outline steps") (heap w2)
    ∧ last (asked w2)
      = Some (PrioritizationPrompt
                [lit "Gather resources"; lit "Develop plan";
                 lit "Define problem"; lit "Gather resources"; lit "Develop plan"]
                (lit "Plan a trip") 9).
Proof.
  eexists _, _, _. split_and!; try (vm_compute; reflexivity).
  vm_compute. repeat (apply Forall_cons; split; [discriminate|]). apply Forall_nil_2.
Qed.

(** The part of C1 that holds: in the first turn the selected thought is
    the root, and the scenario of the specification comes out as written
    (before the reprioritization replaces the store). *)
Lemma first_turn_scenario :
  ∃ w,
    (cur <- run_get_next_thought ;; main_execute_and_create trip cur)
      (seeded trip [lit "done"]) = Ret (tt, w)
    ∧ tasks (tasks_storage w)
      = [ {| task_id := PyInt 2; task_name := lit "Identify key components" |};
          {| task_id := PyInt 3; task_name := lit "Determine constraints" |};
          {| task_id := PyInt 4; task_name := lit "Set goals" |} ]
    ∧ root (thought_tree w) = Some 0
    ∧ children <$> heap w !! 0 = Some [1; 2; 3]
    ∧ map thought_name (heap w)
      = [ lit "Define problem"; lit "Identify key components";
          lit "Determine constraints"; lit "Set goals" ].
Proof. eexists. split_and!; vm_compute; reflexivity. Qed.

(** C7, evaluated on the first turn of the scenario. The record has the id
    "result_1" and the metadata of the task and the result, but the call
    names its keyword [nmespace]: the index receives no [namespace], where
    [context_agent] passes one under that name. *)
Theorem C7_upsert_without_namespace :
  ∃ w call,
    main_body trip (seeded trip [lit "done"; noisy_response]) = Ret (tt, w)
    ∧ index w = [call]
    ∧ upsert_vectors call
      = [ (lit "result_1", get_ada_embedding (lit "done"),
           {| md_task := lit "Define problem"; md_result := lit "done" |}) ]
    ∧ kwarg "namespace" (upsert_kwargs call) = None
    ∧ kwarg "nmespace" (upsert_kwargs call) = Some (KwStr (lit "Plan a trip"))
    ∧ kwarg "namespace" (query_kwargs (context_agent_query trip (lit "Plan a trip") 5))
      = Some (KwStr (OBJECTIVE_PINECONE_COMPAT trip)).
Proof. eexists _, _. split_and!; vm_compute; reflexivity. Qed.

(** The namespace of the objective has ASCII characters only, those of
    the objective in their order. *)
Lemma OBJECTIVE_PINECONE_COMPAT_ascii cfg :
  Forall (λ c, (c ≤ 127)%N) (OBJECTIVE_PINECONE_COMPAT cfg)
  ∧ (Forall (λ c, (c ≤ 127)%N) (OBJECTIVE cfg) →
     OBJECTIVE_PINECONE_COMPAT cfg = OBJECTIVE cfg).
Proof.
  unfold OBJECTIVE_PINECONE_COMPAT, re_sub_ASCII_ONLY, ASCII_ONLY.
  induction (OBJECTIVE cfg) as [|c s [IH1 IH2]]; simpl.
  - split; [apply Forall_nil_2 | done].
  - rewrite negb_involutive. destruct (N.leb_spec c 127) as [Hle|Hgt].
    + split; [by apply Forall_cons|].
      intros [_ Hs]%Forall_cons. by rewrite IH2.
    + split; [done|]. intros [Hc _]%Forall_cons. lia.
Qed.

(** C3 as stated fails: in the run whose only thought is "Book flight",
    the first turn selects and executes that thought and adds none; every
    leaf of the tree has then been executed, and [get_next_thought] returns
    the same thought again, not none. *)
Lemma C3_executed_leaf_selected_again :
  ∃ w1,
    get_next_thought (heap (seeded solo solo_answers))
      (thought_tree (seeded solo solo_answers)) = Ret (Some 0)
    ∧ main_body solo (seeded solo solo_answers) = Ret (tt, w1)
    ∧ asked w1 = [ ExplorePrompt (lit "Book flight");
                   PrioritizationPrompt [] (lit "Plan a trip") 2 ]
    ∧ (∀ r, is_leaf (heap w1) r = true → r = 0)
    ∧ get_next_thought (heap w1) (thought_tree w1) = Ret (Some 0)
    ∧ get_next_thought (heap w1) (thought_tree w1) ≠ Ret None.
Proof.
  eexists. split_and!; [vm_compute; reflexivity.. | | vm_compute; reflexivity | by vm_compute].
  intros [|r]; [done|]. by vm_compute.
Qed.

(** C3, as the code has it. A [Thought] has the fields [task_name],
    [parent] and [children] and no mark of execution, and
    [get_next_thought] reads the heap and the tree only. On
    root(A → [B, C]) it returns C; it never returns none; on every tree the
    program can build that has a root it returns a leaf; and after a turn
    of the loop that adds no thought it returns what it returned before the
    turn, the thought just executed. *)
Theorem C3_selection_ignores_execution :
  (∃ c, get_next_thought tree_ABC.1 tree_ABC.2 = Ret (Some 2)
        ∧ tree_ABC.1 !! 2 = Some c ∧ thought_name c = lit "C")
  ∧ (∀ h t, get_next_thought h t ≠ Ret None)
  ∧ (∀ h t, built h t → root t ≠ None →
       ∃ leaf, get_next_thought h t = Ret (Some leaf) ∧ is_leaf h leaf = true)
  ∧ (∀ cfg w w',
       main_body cfg w = Ret (tt, w') →
       length (heap w') = length (heap w) →
       get_next_thought (heap w') (thought_tree w')
       = get_next_thought (heap w) (thought_tree w)).
Proof.
  split_and!.
  - eexists. split_and!; vm_compute; reflexivity.
  - apply get_next_thought_not_None.
  - intros h t Hb Hroot. apply built_wf in Hb as Hwf.
    destruct (root t) as [r|] eqn:Hr; [|done].
    destruct (get_next_thought_loop_newest h t Hwf (S (length h)) [] r)
      as (leaf & Hloop & _ & Hleaf & _); [by apply Hwf|lia|].
    exists leaf. split; [|done].
    unfold get_next_thought, get_next_thought_fuel. by rewrite Hr.
  - intros cfg w w' (r & th & Hr & Hth & Hh & Ht)%main_body_thoughts Hlen.
    assert (r < length (heap w)) as Hlt by (by eapply lookup_lt_Some).
    rewrite add_thoughts_spec in Hh, Ht by done. simpl in Hh, Ht.
    rewrite Hh, length_alter, length_app in Hlen.
    unfold new_thoughts in Hlen. rewrite length_map in Hlen.
    assert (generate_tasks_based_on_thought th = []) as Hnil.
    { destruct (generate_tasks_based_on_thought th); [done|]. simpl in Hlen. lia. }
    rewrite Hnil in Hh. simpl in Hh. rewrite app_nil_r in Hh.
    rewrite list_alter_id in Hh.
    + by rewrite Hh, Ht.
    + intros [n pa cs]. unfold add_children. simpl. by rewrite app_nil_r.
Qed.

Lemma C3_selection_ignores_execution_witness :
  ∃ w1,
    main_body solo (seeded solo solo_answers) = Ret (tt, w1)
    ∧ get_next_thought (heap w1) (thought_tree w1)
      = get_next_thought (heap (seeded solo solo_answers))
          (thought_tree (seeded solo solo_answers)).
Proof.
  eexists. split; [vm_compute; reflexivity|].
  apply (proj2 (proj2 (proj2 C3_selection_ignores_execution)) solo
           (seeded solo solo_answers)).
  - vm_compute; reflexivity.
  - vm_compute; reflexivity.
Defined.

(** In the second turn of the staged run the store holds, before the
    reprioritization, tasks whose ids differ as Python values (the strings
    "6" and "7" of the oracle, the integers 6, 7 and 8 of [next_task_id])
    but print alike: the counter moved by one for a list of three. *)
Lemma staged_ids_print_alike :
  ∃ w1 w,
    turns staged 1 (seeded staged staged_answers) = Ret (tt, w1)
    ∧ (cur <- run_get_next_thought ;; main_execute_and_create staged cur) w1
      = Ret (tt, w)
    ∧ map task_id (tasks (tasks_storage w))
      = [PyStr (lit "6"); PyStr (lit "7"); PyInt 6; PyInt 7; PyInt 8]
    ∧ map (λ t, format (task_id t)) (tasks (tasks_storage w))
      = [lit "6"; lit "7"; lit "6"; lit "7"; lit "8"].
Proof. eexists _, _. split_and!; vm_compute; reflexivity. Qed.

(** So [main()], started on the module's start-up state, returns for no
    cut of its loop. *)
Lemma main_never_returns cfg answers n w' :
  main cfg n (startup cfg answers) ≠ Ret (tt, w').
Proof.
  unfold main. intros ([] & w & Hseed & Hloop)%bind_Ret.
  apply (main_loop_never_returns cfg n w w'); [|exact Hloop].
  unfold main_seed in Hseed. simpl in Hseed. by injection Hseed as <-.
Qed.

(** * Further properties *)

(** ** The namespace of the objective *)

Lemma re_sub_ASCII_ONLY_app a b :
  re_sub_ASCII_ONLY (a ++ b) = re_sub_ASCII_ONLY a ++ re_sub_ASCII_ONLY b.
Proof. unfold re_sub_ASCII_ONLY. apply List.filter_app. Qed.

Lemma re_sub_ASCII_ONLY_Forall a : Forall (λ c, (c ≤ 127)%N) (re_sub_ASCII_ONLY a).
Proof.
  unfold re_sub_ASCII_ONLY, ASCII_ONLY. induction a as [|c a IH]; simpl.
  - apply Forall_nil_2.
  - rewrite negb_involutive. destruct (N.leb_spec c 127); [by apply Forall_cons|done].
Qed.

Lemma re_sub_ASCII_ONLY_id a :
  re_sub_ASCII_ONLY a = a ↔ Forall (λ c, (c ≤ 127)%N) a.
Proof.
  split.
  - intros <-. apply re_sub_ASCII_ONLY_Forall.
  - unfold re_sub_ASCII_ONLY, ASCII_ONLY. induction 1 as [|c a Hc _ IH]; simpl; [done|].
    rewrite negb_involutive. destruct (N.leb_spec c 127); [by rewrite IH | lia].
Qed.

(** X1. [re.sub(ASCII_ONLY, '', s)] keeps the ASCII characters of [s] in
    their order and nothing else: the result is all ASCII, substituting
    again changes nothing, the substitution goes through concatenation, a
    string is left as it is exactly when it is all ASCII, and a character
    above 0x7F leaves no trace, so that two objectives that differ in such
    characters only get the same namespace. *)
Theorem X1_ascii_only_substitution (a b : str) (c : N) :
  Forall (λ x, (x ≤ 127)%N) (re_sub_ASCII_ONLY a)
  ∧ re_sub_ASCII_ONLY (re_sub_ASCII_ONLY a) = re_sub_ASCII_ONLY a
  ∧ re_sub_ASCII_ONLY (a ++ b) = re_sub_ASCII_ONLY a ++ re_sub_ASCII_ONLY b
  ∧ (re_sub_ASCII_ONLY a = a ↔ Forall (λ x, (x ≤ 127)%N) a)
  ∧ re_sub_ASCII_ONLY (a ++ (128 + c)%N :: b) = re_sub_ASCII_ONLY (a ++ b)
  ∧ (∀ o1 o2 i j,
       OBJECTIVE_PINECONE_COMPAT
         {| OBJECTIVE := a ++ (128 + c)%N :: b; INITIAL_TASK := i;
            JOIN_EXISTING_OBJECTIVE := o1 |}
       = OBJECTIVE_PINECONE_COMPAT
           {| OBJECTIVE := a ++ b; INITIAL_TASK := j; JOIN_EXISTING_OBJECTIVE := o2 |}).
Proof.
  assert (re_sub_ASCII_ONLY (a ++ (128 + c)%N :: b) = re_sub_ASCII_ONLY (a ++ b)) as Hdrop.
  { rewrite !re_sub_ASCII_ONLY_app. f_equal.
    unfold re_sub_ASCII_ONLY, ASCII_ONLY. simpl. rewrite negb_involutive.
    destruct (N.leb_spec (128 + c) 127); [lia|done]. }
  split_and!.
  - apply re_sub_ASCII_ONLY_Forall.
  - apply re_sub_ASCII_ONLY_id, re_sub_ASCII_ONLY_Forall.
  - apply re_sub_ASCII_ONLY_app.
  - apply re_sub_ASCII_ONLY_id.
  - exact Hdrop.
  - intros. unfold OBJECTIVE_PINECONE_COMPAT. simpl. exact Hdrop.
Qed.

(** ** More on the task storage *)

Lemma next_task_ids_spec n self :
  next_task_ids n self =
    (map (λ i, (task_id_counter self + 1 + Z.of_nat i)%Z) (seq 0 n),
     {| tasks := tasks self;
        task_id_counter := (task_id_counter self + Z.of_nat n)%Z |}).
Proof.
  revert self. induction n as [|n IH]; intros [ts c]; simpl.
  - by rewrite Z.add_0_r.
  - rewrite IH. simpl. f_equal.
    + f_equal; [lia|]. rewrite <- seq_shift, map_map.
      apply map_ext. intros i. lia.
    + f_equal. lia.
Qed.

(** X2. [n] calls of [next_task_id()] in a row return the [n] integers
    that follow the counter, in increasing order and without a repeat, leave
    the counter [n] higher and the queue untouched; on a new store they are
    1, 2, ..., [n]. *)
Theorem X2_next_task_id_counts_up (n : nat) (self : SingleTaskListStorage) :
  (next_task_ids n self).1
    = map (λ i, (task_id_counter self + 1 + Z.of_nat i)%Z) (seq 0 n)
  ∧ StronglySorted Z.lt (next_task_ids n self).1
  ∧ NoDup (next_task_ids n self).1
  ∧ task_id_counter (next_task_ids n self).2 = (task_id_counter self + Z.of_nat n)%Z
  ∧ tasks (next_task_ids n self).2 = tasks self
  ∧ (next_task_ids n new_storage).1 = map (λ i, Z.of_nat (S i)) (seq 0 n).
Proof.
  rewrite !next_task_ids_spec. simpl.
  assert (∀ c m k, StronglySorted Z.lt
            (map (λ i, (c + 1 + Z.of_nat i)%Z) (seq k m))) as Hsorted.
  { intros c m. induction m as [|m IH]; intros k; simpl; [constructor|].
    constructor; [apply IH|].
    apply Forall_forall. intros z Hz. apply list_elem_of_In, in_map_iff in Hz.
    destruct Hz as (i & <- & Hi). apply in_seq in Hi. lia. }
  split_and!; try done.
  - specialize (Hsorted (task_id_counter self) n 0).
    induction Hsorted as [|z zs _ IH Hall]; [apply NoDup_nil_2|].
    apply NoDup_cons. split; [|done].
    intros Hin. rewrite Forall_forall in Hall. specialize (Hall z Hin). lia.
  - apply map_ext. intros i. lia.
Qed.

Lemma poplefts_all ts c :
  poplefts (length ts) {| tasks := ts; task_id_counter := c |}
  = Ret (ts, {| tasks := []; task_id_counter := c |}).
Proof.
  induction ts as [|t ts IH]; simpl; [done|].
  unfold popleft. simpl. by rewrite IH.
Qed.

Lemma poplefts_too_many ts c n :
  length ts < n →
  poplefts n {| tasks := ts; task_id_counter := c |} = Raise IndexError.
Proof.
  revert n. induction ts as [|t ts IH]; intros n Hn.
  - destruct n; [simpl in Hn; lia|done].
  - destruct n as [|n]; [simpl in Hn; lia|]. simpl. unfold popleft. simpl.
    rewrite IH; [done|]. simpl in Hn. lia.
Qed.

(** X3. After [replace(tasks)], [popleft()] returns the tasks of the list
    in the order of the list, whatever the store held before; the store is
    empty exactly when the list was, it is empty after as many pops as the
    list has tasks, any further [popleft()] raises [IndexError], and the
    counter is where it was. *)
Theorem X3_replace_then_drain (ts : list Task) (self : SingleTaskListStorage) (k : nat) :
  poplefts (length ts) (replace ts self)
    = Ret (ts, {| tasks := []; task_id_counter := task_id_counter self |})
  ∧ poplefts (length ts + S k) (replace ts self) = Raise IndexError
  ∧ is_empty (replace ts self) = match ts with [] => true | _ => false end
  ∧ get_task_names (replace ts self) = map task_name ts.
Proof.
  unfold replace. split_and!.
  - apply poplefts_all.
  - apply poplefts_too_many. lia.
  - done.
  - done.
Qed.

(** ** The text sent for an embedding *)

(** X4. [get_ada_embedding] sends the text with every newline turned into
    a space: what is sent has no newline and the length of the text, is the
    text itself when the text has no newline, and is the same for two texts
    that differ in newlines against spaces only. *)
Theorem X4_embedding_text_has_no_newline (text a b : str) :
  (nl ∉ embedded_text (get_ada_embedding text))
  ∧ length (embedded_text (get_ada_embedding text)) = length text
  ∧ (embedded_text (get_ada_embedding text) = text ↔ nl ∉ text)
  ∧ get_ada_embedding (embedded_text (get_ada_embedding text)) = get_ada_embedding text
  ∧ get_ada_embedding (a ++ nl :: b) = get_ada_embedding (a ++ space :: b).
Proof.
  unfold get_ada_embedding, embedded_text, replace_char.
  assert (∀ s, nl ∉ map (λ c, if (c =? nl)%N then space else c) s) as Hnone.
  { induction s as [|c s IH]; simpl; [apply not_elem_of_nil|].
    apply not_elem_of_cons. split; [|done].
    destruct (N.eqb_spec c nl); [done|congruence]. }
  assert (∀ s, nl ∉ s → map (λ c, if (c =? nl)%N then space else c) s = s) as Hid.
  { induction s as [|c s IH]; simpl; [done|].
    intros [Hc Hs]%not_elem_of_cons. rewrite IH by done.
    destruct (N.eqb_spec c nl); [congruence|done]. }
  split_and!.
  - apply Hnone.
  - apply length_map.
  - split; [intros <-; apply Hnone | apply Hid].
  - f_equal. apply Hid, Hnone.
  - f_equal. rewrite !map_app. simpl. done.
Qed.

(** ** The retries of [openai_call] *)

Lemma strip_idemp s : strip (strip s) = strip s.
Proof.
  unfold strip. rewrite lstrip_rstrip, lstrip_idemp.
  by rewrite rstrip_idemp.
Qed.

Lemma openai_call_loop_failures failures attempts slept :
  Forall (λ e, caught e = true) failures →
  openai_call_loop (map Raises failures ++ attempts) slept
  = openai_call_loop attempts (slept + 10 * Z.of_nat (length failures)).
Proof.
  intros Hall. revert slept.
  induction Hall as [|e failures He _ IH]; intros slept; simpl.
  - f_equal. lia.
  - rewrite He, IH. f_equal. lia.
Qed.

(** X5. [openai_call] retries as long as the back end raises one of the
    six exceptions it has a handler for, [InvalidRequestError] among them,
    sleeping ten seconds each time and without a bound on the number of
    tries; it returns the first text the back end returns, stripped (so an
    answer never starts or ends with white space), and lets any other
    exception through at once. *)
Theorem X5_openai_call_retries (failures : list api_exception) (text : str)
    (e : api_exception) (rest : list attempt) :
  Forall (λ e, caught e = true) failures →
  openai_call_loop (map Raises failures ++ Returns text :: rest) 0
    = Answer (strip text) (10 * Z.of_nat (length failures))
  ∧ strip (strip text) = strip text
  ∧ openai_call_loop (map Raises failures) 0
    = StillRetrying (10 * Z.of_nat (length failures))
  ∧ (caught e = false →
     openai_call_loop (map Raises failures ++ Raises e :: rest) 0
     = Escapes e (10 * Z.of_nat (length failures)))
  ∧ caught error_InvalidRequestError = true.
Proof.
  intros Hall. split_and!.
  - by rewrite openai_call_loop_failures.
  - apply strip_idemp.
  - rewrite <- (app_nil_r (map Raises failures)).
    by rewrite openai_call_loop_failures.
  - intros He. rewrite openai_call_loop_failures by done. simpl. by rewrite He.
  - done.
Qed.

Lemma X5_openai_call_retries_witness :
  openai_call_loop
    (map Raises [error_RateLimitError; error_InvalidRequestError; error_Timeout]
     ++ Returns (lit "  done ") :: [Raises other_exception]) 0
  = Answer (lit "done") 30.
Proof.
  destruct (X5_openai_call_retries
              [error_RateLimitError; error_InvalidRequestError; error_Timeout]
              (lit "  done ") other_exception [Raises other_exception])
    as (Hanswer & _).
  - repeat constructor.
  - exact Hanswer.
Defined.

Lemma startswith_app prefix s : startswith prefix (prefix ++ s) = true.
Proof. induction prefix as [|p prefix IH]; simpl; [done|]. by rewrite N.eqb_refl. Qed.

Lemma startswith_prefix prefix s :
  startswith prefix s = true → ∃ s', s = prefix ++ s'.
Proof.
  revert s. induction prefix as [|p prefix IH]; intros s; simpl; [by exists s|].
  destruct s as [|c s]; [done|].
  intros [Hc Hs]%andb_true_iff. apply N.eqb_eq in Hc as ->.
  destruct (IH s Hs) as [s' ->]. by exists s'.
Qed.

(** X6. The back end depends on the beginning of the model name only:
    the subprocess exactly for the names that start with "llama", the chat
    completion API exactly for those that start with "gpt-", the completion
    API for all others. *)
Theorem X6_backend_by_model_prefix (model s : str) :
  (backend_of model = llama_main ↔ startswith (lit "llama") model = true)
  ∧ (backend_of model = openai_ChatCompletion ↔ startswith (lit "gpt-") model = true)
  ∧ (backend_of model = openai_Completion ↔
       startswith (lit "llama") model = false ∧ startswith (lit "gpt-") model = false)
  ∧ backend_of (lit "llama" ++ s) = llama_main
  ∧ backend_of (lit "gpt-" ++ s) = openai_ChatCompletion.
Proof.
  assert (startswith (lit "llama") model = true →
          startswith (lit "gpt-") model = false) as Hexcl.
  { intros [s' ->]%startswith_prefix. reflexivity. }
  split_and!.
  - unfold backend_of. destruct (startswith (lit "llama") model);
      destruct (startswith (lit "gpt-") model); simpl; naive_solver.
  - unfold backend_of. destruct (startswith (lit "llama") model);
      destruct (startswith (lit "gpt-") model); simpl; naive_solver.
  - unfold backend_of. destruct (startswith (lit "llama") model);
      destruct (startswith (lit "gpt-") model); simpl;
      (split; [intros ?; split | intros [? ?]]); congruence.
  - unfold backend_of. by rewrite startswith_app.
  - unfold backend_of.
    assert (startswith (lit "llama") (lit "gpt-" ++ s) = false) as Hl by reflexivity.
    by rewrite Hl, startswith_app.
Qed.

(** ** More on the thought tree *)

Lemma add_thought_lookup name par h t i :
  (∀ p, par = Some p → p < length h) →
  (add_thought name par h t).1.2 !! i =
    if decide (i = length h)
    then Some {| thought_name := name; parent := par; children := [] |}
    else if decide (par = Some i) then add_child (length h) <$> h !! i
    else h !! i.
Proof.
  intros Hpar. unfold add_thought. destruct par as [p|]; simpl.
  - specialize (Hpar p eq_refl).
    destruct (decide (i = length h)) as [->|Hi].
    + rewrite list_lookup_alter_ne by lia.
      rewrite lookup_app_r by lia. by rewrite Nat.sub_diag.
    + destruct (decide (Some p = Some i)) as [[= ->]|Hp].
      * rewrite list_lookup_alter_eq. by rewrite lookup_app_l by lia.
      * rewrite list_lookup_alter_ne by congruence.
        destruct (decide (i < length h)).
        -- by rewrite lookup_app_l.
        -- rewrite !lookup_ge_None_2; [done|lia|]. rewrite length_app. simpl. lia.
  - destruct (decide (i = length h)) as [->|Hi].
    + rewrite lookup_app_r by lia. by rewrite Nat.sub_diag.
    + destruct (decide (i < length h)).
      * by rewrite lookup_app_l.
      * rewrite !lookup_ge_None_2; [done|lia|]. rewrite length_app. simpl. lia.
Qed.

(** What a heap the program can build keeps true of [parent] and
    [children]. *)
Lemma built_forest h t :
  built h t →
  (∀ c p, child_of h c p ↔ parent_of h c p)
  ∧ (∀ p th, h !! p = Some th → NoDup (children th)).
Proof.
  induction 1 as [|name par h t Hb [IHiff IHnd] Hpar].
  { split; [|done]. intros c p. split; intros (th & Hth & _); done. }
  pose proof (built_wf h t Hb) as [Hch _].
  split.
  - intros c p. unfold child_of, parent_of.
    setoid_rewrite (add_thought_lookup name par h t _ Hpar).
    split.
    + intros (th & Hth & Hc).
      destruct (decide (p = length h)) as [->|Hp].
      { injection Hth as <-. simpl in Hc. by apply not_elem_of_nil in Hc. }
      assert (∃ th0, h !! p = Some th0
                ∧ (c ∈ children th0 ∨ (par = Some p ∧ c = length h))) as (th0 & Hth0 & Hc0).
      { destruct (decide (par = Some p)) as [->|Hne].
        - destruct (h !! p) as [th0|]; [|done]. injection Hth as <-.
          exists th0. split; [done|]. simpl in Hc.
          apply elem_of_app in Hc as [Hc|Hc%list_elem_of_singleton]; auto.
        - exists th. auto. }
      destruct Hc0 as [Hc0|[-> ->]].
      * assert (child_of h c p) as (tc & Htc & Hpc)%IHiff by (by exists th0).
        assert (c ≠ length h) by (apply lookup_lt_Some in Htc; lia).
        rewrite decide_False by done.
        destruct (decide (par = Some c)).
        -- rewrite Htc. simpl. eexists. split; [done|]. done.
        -- exists tc. done.
      * rewrite decide_True by done. eexists. split; [done|]. done.
    + intros (tc & Htc & Hpc).
      destruct (decide (c = length h)) as [->|Hc].
      { injection Htc as <-. simpl in Hpc. subst par.
        specialize (Hpar p eq_refl).
        rewrite decide_False by lia. rewrite decide_True by done.
        destruct (lookup_lt_is_Some_2 h p Hpar) as [th0 Hth0]. rewrite Hth0.
        eexists. split; [done|]. simpl. apply elem_of_app. right.
        apply list_elem_of_singleton. done. }
      assert (parent_of h c p) as (th0 & Hth0 & Hc0)%IHiff.
      { destruct (decide (par = Some c)).
        - destruct (h !! c) as [tc0|] eqn:Htc0; [|done]. injection Htc as <-.
          exists tc0. done.
        - by exists tc. }
      assert (p ≠ length h) by (apply lookup_lt_Some in Hth0; lia).
      rewrite decide_False by done.
      destruct (decide (par = Some p)).
      * rewrite Hth0. eexists. split; [done|]. simpl. apply elem_of_app. by left.
      * by exists th0.
  - intros p th. rewrite (add_thought_lookup name par h t _ Hpar).
    destruct (decide (p = length h)) as [->|Hp].
    { intros [= <-]. apply NoDup_nil_2. }
    destruct (decide (par = Some p)) as [->|Hne]; [|by apply IHnd].
    destruct (h !! p) as [th0|] eqn:Hth0; [|done]. intros [= <-]. simpl.
    apply NoDup_app. split_and!; [by eapply IHnd| |apply NoDup_singleton].
    intros x Hx ->%list_elem_of_singleton.
    specialize (Hch p th0 Hth0). rewrite Forall_forall in Hch.
    specialize (Hch _ Hx). lia.
Qed.

(** X7. In every heap the program can build, the [children] lists and the
    [parent] fields say the same thing: a thought is among the children of
    [p] exactly when its [parent] is [p]; no thought is twice among the
    children of a thought, none is a child of two thoughts, and a parent is
    always older than its children, so the links never form a cycle. *)
Theorem X7_parent_and_children_agree (h : list Thought) (t : ThoughtTree) :
  built h t →
  (∀ c p, child_of h c p ↔ parent_of h c p)
  ∧ (∀ p th, h !! p = Some th → NoDup (children th))
  ∧ (∀ c p p', child_of h c p → child_of h c p' → p = p')
  ∧ (∀ c p, child_of h c p → p < c < length h).
Proof.
  intros Hb. destruct (built_forest h t Hb) as [Hiff Hnd].
  split_and!; [done|done| |].
  - intros c p p' (tc & Htc & Hp)%Hiff (tc' & Htc' & Hp')%Hiff. congruence.
  - intros c p (th & Hth & Hc).
    pose proof (proj1 (built_wf h t Hb) p th Hth) as Hall.
    rewrite Forall_forall in Hall. by apply Hall.
Qed.

Lemma X7_parent_and_children_agree_witness :
  child_of tree_ABC.1 2 0 ∧ parent_of tree_ABC.1 2 0 ∧ ¬ child_of tree_ABC.1 2 1.
Proof.
  destruct (X7_parent_and_children_agree tree_ABC.1 tree_ABC.2 tree_ABC_built)
    as (Hiff & _ & Hone & _).
  assert (parent_of tree_ABC.1 2 0) as Hp.
  { eexists. split; reflexivity. }
  split_and!; [by apply Hiff | exact Hp |].
  intros Hc. apply Hiff in Hp. by specialize (Hone 2 0 1 Hp Hc).
Defined.

(** X8. A tree the program can build is empty exactly as long as no
    thought has been made, and [add_thought] never leaves a tree empty: once
    [is_thought_tree_empty] is false it stays false. *)
Theorem X8_tree_empty_iff_no_thought (h : list Thought) (t : ThoughtTree) :
  built h t →
  (is_thought_tree_empty t = true ↔ h = [])
  ∧ (∀ name par, (∀ p, par = Some p → p < length h) →
       is_thought_tree_empty (add_thought name par h t).2 = false).
Proof.
  intros Hb.
  assert (∀ h t, built h t → (root t = None ↔ h = [])) as Hempty.
  { clear. induction 1 as [|name par h t Hb IH Hpar]; [done|].
    split.
    - unfold add_thought. destruct par as [p|]; simpl; [|done].
      intros Hroot%IH. specialize (Hpar p eq_refl). subst h. simpl in Hpar. lia.
    - intros Hnil. apply (f_equal length) in Hnil.
      rewrite add_thought_length in Hnil. done. }
  split.
  - unfold is_thought_tree_empty. rewrite <- (Hempty h t Hb).
    by destruct (root t).
  - intros name par Hpar.
    pose proof (Hempty _ _ (built_add name par h t Hb Hpar)) as Hiff.
    unfold is_thought_tree_empty.
    destruct (root (add_thought name par h t).2) eqn:Hr; [done|].
    assert (length (add_thought name par h t).1.2 = 0) as Hlen
      by (by rewrite (proj1 Hiff eq_refl)).
    rewrite add_thought_length in Hlen. done.
Qed.

Lemma X8_tree_empty_iff_no_thought_witness :
  is_thought_tree_empty tree_A.2 = false
  ∧ is_thought_tree_empty (add_thought (lit "B") (Some 0) tree_A.1 tree_A.2).2 = false.
Proof.
  destruct (X8_tree_empty_iff_no_thought tree_A.1 tree_A.2 tree_A_built)
    as [Hiff Hadd].
  split.
  - apply not_true_is_false. intros He%Hiff. discriminate He.
  - apply Hadd. intros p [= <-]. vm_compute. lia.
Defined.

Lemma comprehension_map {A B} (f : A → outcome B) (P : A → B → Prop) (cs : list A) :
  Forall (λ c, ∃ b, f c = Ret b ∧ P c b) cs →
  ∃ bs, comprehension (map f cs) = Ret bs ∧ Forall2 P cs bs.
Proof.
  induction 1 as [|c cs (b & Hb & HP) _ (bs & Hbs & HPs)]; simpl.
  - exists []. split; [done | constructor].
  - rewrite Hb, Hbs. exists (b :: bs). split; [done | by constructor].
Qed.

Section nested_lists.
Context (h : list Thought) (t : ThoughtTree) (Hwf : heap_wf h t).

(** [get_thoughts] returns on a well-formed heap, and lists the names in
    depth-first order. *)
Lemma get_thoughts_names fuel r :
  r < length h → length h - r ≤ fuel →
  ∃ subs th,
    h !! r = Some th
    ∧ get_thoughts fuel h (Some r) = Ret (Nested (thought_name th) subs)
    ∧ length subs = length (children th)
    ∧ names_of (Nested (thought_name th) subs)
      = map (name_at h) (dfs_oldest_first fuel h r).
Proof using Hwf.
  revert r. induction fuel as [|fuel IH]; intros r Hr Hfuel; [lia|].
  destruct (lookup_lt_is_Some_2 h r Hr) as [th Hth].
  pose proof (proj1 Hwf r th Hth) as Hch.
  destruct (comprehension_map (λ child, get_thoughts fuel h (Some child))
              (λ c n, names_of n = map (name_at h) (dfs_oldest_first fuel h c))
              (children th)) as (subs & Hsubs & Hall).
  { eapply Forall_impl; [exact Hch|]. intros c Hc. simpl in *.
    destruct (IH c) as (subs & tc & Htc & Hget & _ & Hnames); [lia..|].
    eexists. split; [exact Hget | exact Hnames]. }
  exists subs, th. simpl. rewrite Hth, Hsubs.
  split_and!; [done|done|symmetry; by eapply Forall2_length|].
  simpl. unfold name_at at 1. rewrite Hth. simpl. f_equal.
  clear -Hall. induction Hall as [|c n cs subs Hn _ IHall]; simpl; [done|].
  by rewrite map_app, Hn, IHall.
Qed.

End nested_lists.

(** X9. On every tree the program can build that has a root,
    [get_thoughts(root)] returns, within a recursion depth of the number of
    thoughts plus one, a list that starts with the name of the root and has
    one nested list for each child of the root; read from left to right its
    names are the names of the thoughts under the root in depth-first order,
    the children in the order they were added. Given no thought it raises
    [AttributeError]. *)
Theorem X9_get_thoughts_lists_depth_first (h : list Thought) (t : ThoughtTree) (r : ref) :
  built h t → root t = Some r →
  (∃ subs th,
     h !! r = Some th
     ∧ get_thoughts (S (length h)) h (root t) = Ret (Nested (thought_name th) subs)
     ∧ length subs = length (children th)
     ∧ names_of (Nested (thought_name th) subs)
       = map (name_at h) (dfs_oldest_first (S (length h)) h r))
  ∧ get_thoughts (S (length h)) h None = Raise AttributeError.
Proof.
  intros Hb Hr. pose proof (built_wf h t Hb) as Hwf.
  split; [|done]. rewrite Hr.
  apply (get_thoughts_names h t Hwf); [by apply Hwf | lia].
Qed.

Lemma X9_get_thoughts_lists_depth_first_witness :
  get_thoughts 4 tree_ABC.1 (root tree_ABC.2)
  = Ret (Nested (lit "A") [Nested (lit "B") []; Nested (lit "C") []])
  ∧ map (name_at tree_ABC.1) (dfs_oldest_first 4 tree_ABC.1 0)
    = [lit "A"; lit "B"; lit "C"].
Proof.
  destruct (X9_get_thoughts_lists_depth_first tree_ABC.1 tree_ABC.2 0)
    as ((subs & th & Hth & Hget & Hlen & Hnames) & _);
    [apply tree_ABC_built | reflexivity |].
  split; reflexivity.
Defined.

(** ** The task generation policy *)

(** The four entries of the task map, and nothing for any other name. *)
Lemma task_map_get_cases (name : str) :
  (name = lit "INITIAL_TASK"
   ∧ task_map_get task_map name
     = [lit "Define problem"; lit "Gather resources"; lit "Develop plan"])
  ∨ (name = lit "Define problem"
     ∧ task_map_get task_map name
       = [lit "Identify key components"; lit "Determine constraints"; lit "Set goals"])
  ∨ (name = lit "Gather resources"
     ∧ task_map_get task_map name
       = [lit "Search for information"; lit "Organize resources";
          lit "Evaluate resources"])
  ∨ (name = lit "Develop plan"
     ∧ task_map_get task_map name
       = [lit "Outline steps"; lit "Assign responsibilities"; lit "Set timeline"])
  ∨ ((name ∉ [lit "INITIAL_TASK"; lit "Define problem"; lit "Gather resources";
              lit "Develop plan"])
     ∧ task_map_get task_map name = []).
Proof.
  unfold task_map, task_map_get, str_eqb.
  repeat case_bool_decide; subst; auto 10.
  do 4 right. split; [|done].
  rewrite !elem_of_cons, elem_of_nil. intros [?|[?|[?|[?|[]]]]]; congruence.
Qed.

Ltac task_map_cases name :=
  let Hm := fresh "Hmap" in
  destruct (task_map_get_cases name)
    as [[? Hm]|[[? Hm]|[[? Hm]|[[? Hm]|[? Hm]]]]]; rewrite Hm in *; clear Hm.

Ltac pick_name H :=
  rewrite ?elem_of_cons, ?elem_of_nil in H;
  repeat match type of H with
         | _ ∨ _ => destruct H as [H|H]
         | False => destruct H
         end.

(** X10. [generate_tasks_based_on_thought] never fails: a name that is
    not a key of the task map gives the empty list, each of the four keys
    gives three names, none of them the key itself, and the names it gives
    for a name it gave for a name it gave have no entry: the map ends after
    two steps. *)
Theorem X10_task_map_lookup (thought : Thought) :
  let names := generate_tasks_based_on_thought thought in
  (length names = 0 ∨ length names = 3)
  ∧ (names ≠ [] ↔
       thought_name thought ∈ [lit "INITIAL_TASK"; lit "Define problem";
                               lit "Gather resources"; lit "Develop plan"])
  ∧ (thought_name thought ∉ names)
  ∧ (∀ c g, thought_name c ∈ names →
       thought_name g ∈ generate_tasks_based_on_thought c →
       generate_tasks_based_on_thought g = []).
Proof.
  unfold generate_tasks_based_on_thought. cbv zeta.
  split_and!.
  - task_map_cases (thought_name thought); simpl; auto.
  - task_map_cases (thought_name thought);
      try (split; [intros _|done];
           match goal with H : thought_name _ = _ |- _ => rewrite H end;
           rewrite !elem_of_cons; auto 10).
    split; [done|]. by intros ?.
  - task_map_cases (thought_name thought);
      try (match goal with H : thought_name _ = _ |- _ => rewrite H end;
           intros Hin; pick_name Hin; discriminate Hin).
    apply not_elem_of_nil.
  - intros c g Hc Hg.
    task_map_cases (thought_name thought); pick_name Hc;
      task_map_cases (thought_name c);
      try (match goal with H : thought_name c = _ |- _ =>
             rewrite Hc in H; discriminate H end);
      pick_name Hg; rewrite Hg; reflexivity.
Qed.

Lemma X10_task_map_lookup_witness :
  generate_tasks_based_on_thought
    {| thought_name := lit "Set goals"; parent := Some 0; children := [] |} = [].
Proof.
  apply (proj2 (proj2 (proj2 (X10_task_map_lookup
           {| thought_name := lit "INITIAL_TASK"; parent := None; children := [] |})))
           {| thought_name := lit "Define problem"; parent := Some 0; children := [] |}).
  - vm_compute. apply list_elem_of_here.
  - vm_compute. do 2 apply list_elem_of_further. apply list_elem_of_here.
Defined.

(** X11. On a tree with a root, [task_creation_agent] returns the names
    the task map has for the root, whatever its own arguments are, and
    leaves the heap longer by one childless thought per name, in the order
    of the names, each with the root for parent and each added at the end
    of the children of the root; every other thought, the root of the tree,
    the store, the index and the oracle are untouched. On a tree without a
    root it raises [AttributeError]. *)
Theorem X11_task_creation_agent_grows_root
    (objective result task_description : str) (w : World) (r : ref) (th : Thought) :
  root (thought_tree w) = Some r → heap w !! r = Some th →
  let names := generate_tasks_based_on_thought th in
  (∃ w',
     task_creation_agent objective result task_description w = Ret (names, w')
     ∧ length (heap w') = length (heap w) + length names
     ∧ children <$> heap w' !! r
       = Some (children th ++ seq (length (heap w)) (length names))
     ∧ (∀ i, i ≠ r → i < length (heap w) → heap w' !! i = heap w !! i)
     ∧ (∀ i name, names !! i = Some name →
          heap w' !! (length (heap w) + i)
          = Some {| thought_name := name; parent := Some r; children := [] |})
     ∧ thought_tree w' = thought_tree w ∧ tasks_storage w' = tasks_storage w
     ∧ index w' = index w ∧ oracle w' = oracle w ∧ asked w' = asked w)
  ∧ (∀ w0, root (thought_tree w0) = None →
       task_creation_agent objective result task_description w0 = Raise AttributeError).
Proof.
  intros Hr Hth names.
  assert (r < length (heap w)) as Hlt by (by eapply lookup_lt_Some).
  split.
  - eexists. split.
    { unfold task_creation_agent, attr. rewrite Hr, Hth. fold names.
      rewrite add_thoughts_spec by done. reflexivity. }
    simpl. split_and!; try done.
    + rewrite length_alter, length_app. unfold new_thoughts. by rewrite length_map.
    + rewrite list_lookup_alter_eq, lookup_app_l by done. by rewrite Hth.
    + intros i Hi Hilt. rewrite list_lookup_alter_ne by done. by rewrite lookup_app_l.
    + intros i name Hname.
      rewrite list_lookup_alter_ne by lia.
      rewrite lookup_app_r by lia.
      replace (length (heap w) + i - length (heap w)) with i by lia.
      unfold new_thoughts. rewrite list_lookup_fmap, Hname. done.
  - intros w0 Hroot. unfold task_creation_agent, attr. by rewrite Hroot.
Qed.

Lemma X11_task_creation_agent_grows_root_witness :
  ∃ w',
    task_creation_agent (lit "Plan a trip") (lit "r1") (lit "INITIAL_TASK")
      (seeded staged staged_answers)
    = Ret ([lit "Define problem"; lit "Gather resources"; lit "Develop plan"], w')
    ∧ children <$> heap w' !! 0 = Some [1; 2; 3].
Proof.
  destruct (X11_task_creation_agent_grows_root
              (lit "Plan a trip") (lit "r1") (lit "INITIAL_TASK")
              (seeded staged staged_answers) 0
              {| thought_name := lit "INITIAL_TASK"; parent := None; children := [] |})
    as ((w' & Hrun & _ & Hch & _) & _); [reflexivity..|].
  exists w'. split; [exact Hrun | exact Hch].
Defined.

(** ** More on the prioritization parser *)

Lemma contains_elem_of sep s : contains sep s = true ↔ sep ∈ s.
Proof.
  unfold contains. rewrite existsb_exists. split.
  - intros (x & Hx & ->%N.eqb_eq). by apply list_elem_of_In.
  - intros Hin. exists sep. split; [by apply list_elem_of_In | apply N.eqb_refl].
Qed.

Lemma contains_not_elem_of sep s : contains sep s = false ↔ sep ∉ s.
Proof.
  rewrite <- contains_elem_of. by destruct (contains sep s).
Qed.

Lemma split_parts sep s : Forall (λ l, sep ∉ l) (split sep s).
Proof.
  induction s as [|c s IH]; simpl.
  - apply Forall_cons. split; [apply not_elem_of_nil | apply Forall_nil_2].
  - destruct (N.eqb_spec c sep) as [->|Hne].
    + apply Forall_cons. split; [apply not_elem_of_nil | done].
    + destruct (split sep s) as [|l ls].
      * apply Forall_cons. split; [|apply Forall_nil_2].
        apply not_elem_of_cons. split; [congruence | apply not_elem_of_nil].
      * apply Forall_cons in IH as [Hl Hls]. apply Forall_cons. split; [|done].
        apply not_elem_of_cons. split; [congruence | done].
Qed.

Lemma split_app_sep sep l s : sep ∉ l → split sep (l ++ sep :: s) = l :: split sep s.
Proof.
  induction l as [|c l IH]; simpl.
  - intros _. by rewrite N.eqb_refl.
  - intros [Hc Hl]%not_elem_of_cons. rewrite IH by done.
    destruct (N.eqb_spec c sep); [congruence | done].
Qed.

Lemma split_join sep ls :
  ls ≠ [] → Forall (λ l, sep ∉ l) ls → split sep (join sep ls) = ls.
Proof.
  intros Hne Hall. induction Hall as [|l ls Hl Hls IH]; [done|].
  destruct ls as [|l' ls].
  - simpl. apply split_no_sep. by apply contains_not_elem_of.
  - change (join sep (l :: l' :: ls)) with (l ++ sep :: join sep (l' :: ls)).
    rewrite split_app_sep by done. by rewrite IH.
Qed.

Lemma parse_line_Some line t :
  parse_line line = Some t →
  ∃ a b, line = a ++ dot :: b ∧ (dot ∉ a)
         ∧ t = {| task_id := PyStr (strip a); task_name := strip b |}.
Proof.
  unfold parse_line. destruct (cut dot line) as [[a b]|] eqn:Hcut; [|done].
  intros [= <-]. apply cut_Some in Hcut as [-> Hnotin]. by exists a, b.
Qed.

Lemma length_parsed ls :
  length (omap parse_line ls) = length (List.filter (contains dot) ls).
Proof.
  induction ls as [|l ls IH]; simpl; [done|].
  change (list_omap _ _ parse_line ls) with (omap parse_line ls).
  unfold parse_line at 1.
  destruct (cut dot l) as [[a b]|] eqn:Hcut.
  - apply cut_Some in Hcut as [-> _].
    assert (contains dot (a ++ dot :: b) = true) as ->.
    { apply contains_elem_of, elem_of_app. right. apply list_elem_of_here. }
    simpl. by rewrite IH.
  - apply cut_None, contains_not_elem_of in Hcut. by rewrite Hcut.
Qed.

(** What holds of every task the parser makes. *)
Lemma parsed_tasks_plain response :
  Forall (λ t, ∃ id, task_id t = PyStr id ∧ (dot ∉ id) ∧ plain id ∧ plain (task_name t))
    (parsed_tasks response).
Proof.
  unfold parsed_tasks. pose proof (split_parts nl response) as Hparts.
  induction Hparts as [|l ls Hl _ IH]; simpl; [apply Forall_nil_2|].
  change (list_omap _ _ parse_line ls) with (omap parse_line ls).
  destruct (parse_line l) as [t|] eqn:Hparse; [|done].
  apply Forall_cons. split; [|done].
  apply parse_line_Some in Hparse as (a & b & -> & Hdot & ->).
  rewrite not_elem_of_app, not_elem_of_cons in Hl. destruct Hl as (Ha & _ & Hb).
  exists (strip a). unfold plain. simpl.
  split_and!; auto using strip_not_elem_of, strip_idemp.
Qed.

(** X12. Whatever the oracle answers, the tasks [prioritization_agent]
    leaves in the store have strings for ids, without a [.] in them, and
    neither the ids nor the names have a newline or white space at either
    end; there is one task for each line of the answer that has a [.], so
    never more tasks than lines. *)
Theorem X12_prioritized_tasks_are_plain
    (cfg : Config) (w : World) (response : str) (rest : list str) :
  oracle w = response :: rest →
  ∃ w',
    prioritization_agent cfg w = Ret (tt, w')
    ∧ Forall (λ t, ∃ id, task_id t = PyStr id ∧ (dot ∉ id) ∧ plain id
                         ∧ plain (task_name t))
        (tasks (tasks_storage w'))
    ∧ length (tasks (tasks_storage w'))
      = length (List.filter (contains dot) (split nl response))
    ∧ length (tasks (tasks_storage w')) ≤ length (split nl response).
Proof.
  intros Horacle. eexists. split; [by apply prioritization_agent_run|]. simpl.
  split_and!.
  - apply parsed_tasks_plain.
  - apply length_parsed.
  - unfold parsed_tasks. rewrite length_parsed. apply List.filter_length_le.
Qed.

Lemma X12_prioritized_tasks_are_plain_witness :
  ∃ w',
    prioritization_agent trip (startup trip [noisy_response]) = Ret (tt, w')
    ∧ length (tasks (tasks_storage w')) = 3
    ∧ length (split nl noisy_response) = 4.
Proof.
  destruct (X12_prioritized_tasks_are_plain trip (startup trip [noisy_response])
              noisy_response []) as (w' & Hrun & _ & Hlen & _); [reflexivity|].
  exists w'. split_and!; [exact Hrun | exact Hlen | reflexivity].
Defined.

(** The decimal digits and the minus sign are no white space, no [.] and
    no newline. *)
Lemma str_of_int_chars z :
  Forall (λ c, is_space c = false ∧ c ≠ dot ∧ c ≠ nl) (str_of_int z).
Proof.
  unfold str_of_int, NilZero.string_of_int.
  assert (∀ d, Forall (λ c, is_space c = false ∧ c ≠ dot ∧ c ≠ nl)
                 (lit (NilEmpty.string_of_uint d))) as Hd.
  { induction d; simpl; [apply Forall_nil_2|..]; (apply Forall_cons; split; [done|]);
      assumption. }
  assert (∀ d, Forall (λ c, is_space c = false ∧ c ≠ dot ∧ c ≠ nl)
                 (lit (NilZero.string_of_uint d))) as Hd0.
  { intros d. destruct d; try apply Hd. by repeat constructor. }
  destruct (Z.to_int z) as [d|d]; [apply Hd0|].
  change (lit (String "-" (NilZero.string_of_uint d)))
    with (45%N :: lit (NilZero.string_of_uint d)).
  apply Forall_cons. split; [done | apply Hd0].
Qed.

Lemma plain_no_space s :
  Forall (λ c, is_space c = false ∧ c ≠ dot ∧ c ≠ nl) s → plain s ∧ dot ∉ s.
Proof.
  intros Hall. unfold plain. split_and!.
  - intros Hin. rewrite Forall_forall in Hall. by destruct (Hall _ Hin) as (_ & _ & ?).
  - unfold strip.
    assert (lstrip s = s) as ->.
    { destruct Hall as [|c s [Hc _] _]; simpl; [done|]. by rewrite Hc. }
    induction Hall as [|c s [Hc _] _ IH]; [done|].
    by rewrite rstrip_cons_nonspace, IH.
  - intros Hin. rewrite Forall_forall in Hall. by destruct (Hall _ Hin) as (_ & ? & _).
Qed.

Lemma parse_line_numbered t :
  listable t → parse_line (numbered t) = Some (id_printed t) ∧ nl ∉ numbered t.
Proof.
  intros (Hdot & [Hnl Hid] & [Hnl' Hname]). split.
  - unfold parse_line, numbered. rewrite cut_app by done.
    unfold id_printed. do 2 f_equal; [by rewrite Hid|].
    unfold strip in *. simpl. exact Hname.
  - unfold numbered. rewrite not_elem_of_app, !not_elem_of_cons. done.
Qed.

Lemma parsed_tasks_numbered ts :
  Forall listable ts → parsed_tasks (join nl (map numbered ts)) = map id_printed ts.
Proof.
  intros Hall. unfold parsed_tasks.
  assert (omap parse_line (map numbered ts) = map id_printed ts) as Homap.
  { induction Hall as [|t' ts' Ht _ IH]; [done|]. simpl.
    change (list_omap _ _ parse_line (map numbered ts'))
      with (omap parse_line (map numbered ts')).
    destruct (parse_line_numbered t' Ht) as [-> _]. by rewrite IH. }
  destruct ts as [|t ts]; [done|].
  rewrite split_join; [done|done|].
  apply Forall_fmap. eapply Forall_impl; [exact Hall|].
  intros t' Ht'. by apply parse_line_numbered.
Qed.

Lemma listable_int z name :
  plain name → listable {| task_id := PyInt z; task_name := name |}.
Proof.
  intros Hname. destruct (plain_no_space _ (str_of_int_chars z)) as [Hplain Hdot].
  by split_and!.
Qed.

Lemma plain_check s : contains nl s = false → strip s = s → plain s.
Proof. intros Hnl%contains_not_elem_of Hstrip. by split. Qed.

(** X13. A numbered list read back: when the oracle answers with the
    tasks [ts] written one per line as "<id>. <name>", and their ids and
    names have no newline, no white space at either end and the ids no [.],
    [prioritization_agent] leaves exactly those tasks in the store, in the
    order of the list, with the same names and with every id as the string
    it was written as. Integer ids always qualify, and come back as strings;
    string ids come back as they are. *)
Theorem X13_numbered_list_read_back
    (cfg : Config) (w : World) (ts : list Task) (rest : list str) :
  Forall listable ts →
  oracle w = join nl (map numbered ts) :: rest →
  (∃ w',
     prioritization_agent cfg w = Ret (tt, w')
     ∧ tasks (tasks_storage w') = map id_printed ts
     ∧ get_task_names (tasks_storage w') = map task_name ts)
  ∧ (∀ z name, plain name →
       listable {| task_id := PyInt z; task_name := name |}
       ∧ id_printed {| task_id := PyInt z; task_name := name |}
         = {| task_id := PyStr (str_of_int z); task_name := name |})
  ∧ (∀ id name, dot ∉ id → plain id → plain name →
       listable {| task_id := PyStr id; task_name := name |}
       ∧ id_printed {| task_id := PyStr id; task_name := name |}
         = {| task_id := PyStr id; task_name := name |}).
Proof.
  intros Hall Horacle. split_and!.
  - eexists. split; [by apply prioritization_agent_run|]. simpl.
    rewrite parsed_tasks_numbered by done. split; [done|].
    unfold get_task_names. simpl. rewrite map_map. done.
  - intros z name Hname. split; [by apply listable_int | done].
  - intros id name Hdot Hid Hname. by split_and!.
Qed.

Lemma X13_numbered_list_read_back_witness :
  ∃ w',
    prioritization_agent trip
      (startup trip [join nl (map numbered [task_a; task_b])]) = Ret (tt, w')
    ∧ tasks (tasks_storage w')
      = [ {| task_id := PyStr (lit "1"); task_name := lit "Define problem" |};
          {| task_id := PyStr (lit "2"); task_name := lit "Set goals" |} ].
Proof.
  destruct (X13_numbered_list_read_back trip
              (startup trip [join nl (map numbered [task_a; task_b])])
              [task_a; task_b] []) as ((w' & Hrun & Htasks & _) & _).
  - apply Forall_cons. split; [by apply listable_int, plain_check|].
    apply Forall_cons. split; [by apply listable_int, plain_check|].
    apply Forall_nil_2.
  - reflexivity.
  - exists w'. split; [exact Hrun | exact Htasks].
Defined.

(** ** More on the driver loop *)

(** What a turn of the loop that returns has found in the world. *)
Lemma main_body_Ret_facts cfg w w' :
  main_body cfg w = Ret (tt, w') →
  ∃ r th cur thc task rest result more,
    root (thought_tree w) = Some r ∧ heap w !! r = Some th
    ∧ get_next_thought (heap w) (thought_tree w) = Ret (Some cur)
    ∧ heap w !! cur = Some thc
    ∧ tasks (tasks_storage w) = task :: rest
    ∧ oracle w = result :: more.
Proof.
  intros H.
  destruct (main_body_thoughts cfg w w' H) as (r & th & Hr & Hth & _).
  unfold main_body, main_steps, main_execute_and_create in H.
  unfold bind at 1 in H. unfold run_get_next_thought in H.
  destruct (get_next_thought (heap w) (thought_tree w)) as [cur0| | |] eqn:Hget;
    try done.
  unfold bind at 1 in H. unfold bind at 1 in H.
  unfold tasks_storage_popleft, popleft in H.
  destruct (tasks (tasks_storage w)) as [|task rest] eqn:Htasks; try done.
  unfold bind at 1 in H. unfold execution_agent, explore_thought in H.
  unfold bind at 1 in H. unfold bind at 1 in H. unfold attr at 1 in H.
  destruct cur0 as [cur|]; try done. simpl in H.
  destruct (heap w !! cur) as [thc|] eqn:Hcur; try done.
  unfold openai_call at 1 in H. simpl in H.
  destruct (oracle w) as [|result more] eqn:Horacle; try done.
  by exists r, th, cur, thc, task, rest, result, more.
Qed.

(** On a tree the program can build that has a root, [get_next_thought]
    returns a thought without children. *)
Lemma get_next_thought_leaf h t r :
  built h t → root t = Some r →
  ∃ cur thc,
    get_next_thought h t = Ret (Some cur) ∧ h !! cur = Some thc ∧ children thc = [].
Proof.
  intros Hb Hr. apply built_wf in Hb as Hwf.
  pose proof (proj2 Hwf r Hr) as Hlt.
  destruct (get_next_thought_loop_newest h t Hwf (S (length h)) [] r)
    as (cur & Hloop & _ & Hleaf & _); [done|lia|].
  unfold is_leaf in Hleaf.
  destruct (h !! cur) as [thc|] eqn:Hcur; [|done].
  destruct (children thc) eqn:Hcs; [|done].
  exists cur, thc. split_and!; [|done..].
  unfold get_next_thought, get_next_thought_fuel. by rewrite Hr.
Qed.

(** A turn on an empty store stops at [popleft]. *)
Lemma main_body_empty_store cfg w r :
  built (heap w) (thought_tree w) → root (thought_tree w) = Some r →
  tasks (tasks_storage w) = [] →
  main_body cfg w = Raise IndexError.
Proof.
  intros Hb Hr Htasks.
  destruct (get_next_thought_leaf _ _ r Hb Hr) as (cur & thc & Hget & _).
  unfold main_body, main_steps, main_execute_and_create. unfold bind at 1.
  unfold run_get_next_thought. rewrite Hget.
  unfold bind at 1. unfold bind at 1. unfold tasks_storage_popleft, popleft.
  by rewrite Htasks.
Qed.

(** A turn waits for ever for an answer the oracle does not give. *)
Lemma main_body_no_result cfg w r task rest :
  built (heap w) (thought_tree w) → root (thought_tree w) = Some r →
  tasks (tasks_storage w) = task :: rest → oracle w = [] →
  main_body cfg w = Diverge.
Proof.
  intros Hb Hr Htasks Horacle.
  destruct (get_next_thought_leaf _ _ r Hb Hr) as (cur & thc & Hget & Hcur & _).
  unfold main_body, main_steps, main_execute_and_create. unfold bind at 1.
  unfold run_get_next_thought. rewrite Hget.
  unfold bind at 1. unfold bind at 1. unfold tasks_storage_popleft, popleft.
  rewrite Htasks.
  unfold bind at 1. unfold execution_agent, explore_thought.
  unfold bind at 1. unfold bind at 1. unfold attr at 1. simpl. rewrite Hcur.
  unfold openai_call. simpl. by rewrite Horacle.
Qed.

Lemma main_body_no_list cfg w r task rest result :
  built (heap w) (thought_tree w) → root (thought_tree w) = Some r →
  tasks (tasks_storage w) = task :: rest → oracle w = [result] →
  JOIN_EXISTING_OBJECTIVE cfg = false →
  main_body cfg w = Diverge.
Proof.
  intros Hb Hr Htasks Horacle Hjoin.
  destruct (get_next_thought_leaf _ _ r Hb Hr) as (cur & thc & Hget & Hcur & _).
  apply built_wf in Hb as Hwf.
  pose proof (proj2 Hwf r Hr) as Hlt.
  destruct (lookup_lt_is_Some_2 (heap w) r Hlt) as [th Hth].
  unfold main_body, main_steps. unfold bind at 1.
  unfold run_get_next_thought. rewrite Hget.
  unfold bind at 1.
  rewrite (main_execute_and_create_run cfg w cur thc r th task rest result [])
    by done.
  rewrite Hjoin. reflexivity.
Qed.



(** X15. The account of a turn that returns: the thought it selected has
    no children; it took the oldest task off the store and two answers off
    the oracle, the result and the new list; it sent the index one record,
    whose id is made of the id of the task it took and whose metadata pair
    the name of that task with the result; it asked the oracle to explore
    the selected thought and then to prioritize the names of the remaining
    tasks followed by the names the task map has for the root; the store now
    holds what was read from the new list, the counter is one more than the
    number of those names ahead, and the heap has one more thought for each
    of them. *)
Theorem X15_turn_account (cfg : Config) (w w' : World) :
  JOIN_EXISTING_OBJECTIVE cfg = false →
  built (heap w) (thought_tree w) →
  main_body cfg w = Ret (tt, w') →
  ∃ r th cur thc task rest result response,
    root (thought_tree w) = Some r ∧ heap w !! r = Some th
    ∧ get_next_thought (heap w) (thought_tree w) = Ret (Some cur)
    ∧ heap w !! cur = Some thc ∧ children thc = []
    ∧ tasks (tasks_storage w) = task :: rest
    ∧ oracle w = result :: response :: oracle w'
    ∧ index w' = index w ++
        [{| upsert_vectors :=
              [(lit "result_" ++ format (task_id task), get_ada_embedding result,
                {| md_task := task_name task; md_result := result |})];
            upsert_kwargs :=
              [("nmespace"%string, KwStr (OBJECTIVE_PINECONE_COMPAT cfg))] |}]
    ∧ asked w' = asked w ++
        [ExplorePrompt (thought_name thc);
         PrioritizationPrompt
           (map task_name rest ++ generate_tasks_based_on_thought th) (OBJECTIVE cfg)
           (task_id_counter (tasks_storage w)
            + Z.of_nat (length (generate_tasks_based_on_thought th)) + 1)]
    ∧ tasks (tasks_storage w') = parsed_tasks response
    ∧ task_id_counter (tasks_storage w')
      = (task_id_counter (tasks_storage w)
         + Z.of_nat (length (generate_tasks_based_on_thought th)) + 1)%Z
    ∧ length (heap w') = length (heap w) + length (generate_tasks_based_on_thought th)
    ∧ thought_tree w' = thought_tree w.
Proof.
  intros Hjoin Hb H.
  destruct (main_body_Ret_facts cfg w w' H)
    as (r & th & cur0 & thc0 & task & rest & result & more
        & Hr & Hth & _ & _ & Htasks & Horacle).
  destruct more as [|response more].
  { rewrite (main_body_no_list cfg w r task rest result) in H by done. done. }
  destruct (main_body_run cfg w r th task rest result response more)
    as (cur & thc & Hget & Hcur & Hleaf & Hrun); [done..|].
  rewrite Hrun in H. injection H as <-.
  exists r, th, cur, thc, task, rest, result, response.
  cbn [heap thought_tree tasks_storage index oracle asked tasks task_id_counter].
  split_and!; try done.
  rewrite length_alter, length_app. unfold new_thoughts. by rewrite length_map.
Qed.

Lemma X15_turn_account_witness :
  ∃ w', main_body staged (seeded staged staged_answers) = Ret (tt, w')
        ∧ ∃ call, index w' = [call]
                  ∧ upsert_vectors call
                    = [(lit "result_1", get_ada_embedding (lit "r1"),
                        {| md_task := lit "INITIAL_TASK"; md_result := lit "r1" |})].
Proof.
  assert (∃ w', main_body staged (seeded staged staged_answers) = Ret (tt, w'))
    as [w' Hrun] by (eexists; vm_compute; reflexivity).
  exists w'. split; [exact Hrun|].
  destruct (X15_turn_account staged (seeded staged staged_answers) w')
    as (r & th & cur & thc & task & rest & result & response
        & _ & _ & _ & _ & _ & Htasks & Horacle & Hindex & _);
    [reflexivity | apply seeded_built | exact Hrun |].
  injection Htasks as <- <-. injection Horacle as <- _.
  eexists. split; [exact Hindex | reflexivity].
Defined.

(** ** The tree the loop grows *)

Lemma concat_replicate_snoc {A} (j : nat) (l : list A) :
  concat (replicate j l) ++ l = concat (replicate (S j) l).
Proof.
  induction j as [|j IH]; simpl in *.
  - by rewrite app_nil_r.
  - by rewrite <- app_assoc, IH.
Qed.

Lemma length_concat_replicate {A} (j : nat) (l : list A) :
  length (concat (replicate j l)) = j * length l.
Proof.
  induction j as [|j IH]; simpl; [done|]. by rewrite length_app, IH.
Qed.

Lemma lookup_new_thoughts names par i :
  new_thoughts names par !! i
  = (λ name, {| thought_name := name; parent := par; children := [] |})
    <$> names !! i.
Proof.
  unfold new_thoughts. revert i.
  induction names as [|name names IH]; intros [|i]; simpl; try done.
Qed.

(** On a root whose children are all leaves, [get_next_thought] takes the
    child added last, and the root itself when it has no child. *)
Lemma get_next_thought_flat name names :
  get_next_thought
    ({| thought_name := name; parent := None; children := seq 1 (length names) |}
     :: new_thoughts names (Some 0))
    {| root := Some 0 |}
  = Ret (Some (length names)).
Proof.
  unfold get_next_thought, get_next_thought_fuel. cbn [root length].
  destruct (length names) as [|m] eqn:Hlen; [done|].
  rewrite seq_S. cbn [get_next_thought_loop pop lookup list_lookup children].
  destruct (seq 1 m ++ [1 + m]) as [|c cs] eqn:Hseq.
  { symmetry in Hseq. by apply app_cons_not_nil in Hseq. }
  rewrite <- Hseq, map_app. cbn [map app].
  rewrite pop_snoc. cbn [Nat.add lookup list_lookup].
  change (list_lookup m (new_thoughts names (Some 0)))
    with (new_thoughts names (Some 0) !! m).
  rewrite lookup_new_thoughts.
  destruct (lookup_lt_is_Some_2 names m) as [x Hx]; [lia|].
  rewrite Hx. reflexivity.
Qed.

(** Turns of the loop on a root with [j] rounds of children leave a root
    with one more round each. *)
Lemma turns_rounds cfg k j w w' :
  heap w = root_with_rounds cfg j → thought_tree w = {| root := Some 0 |} →
  turns cfg k w = Ret (tt, w') →
  heap w' = root_with_rounds cfg (j + k) ∧ thought_tree w' = {| root := Some 0 |}.
Proof.
  revert j w. induction k as [|k IH]; intros j w Hh Ht H.
  - simpl in H. injection H as <-. by rewrite Nat.add_0_r.
  - simpl in H. apply bind_Ret in H as ([] & w1 & Hbody & Hturns).
    apply main_body_thoughts in Hbody as (r & th & Hr & Hth & Hh1 & Ht1).
    rewrite Ht in Hr. injection Hr as <-.
    rewrite Hh in Hth. injection Hth as <-.
    rewrite add_thoughts_spec in Hh1, Ht1 by (rewrite Hh; simpl; lia).
    cbn [fst snd] in Hh1, Ht1.
    replace (j + S k) with (S j + k) by lia.
    apply (IH (S j) w1); [|congruence|done].
    rewrite Hh1, Hh.
    change (generate_tasks_based_on_thought _) with (root_names cfg).
    unfold root_with_rounds. cbn [app alter list_alter length].
    unfold add_children. cbn [thought_name parent children].
    unfold new_thoughts at 1. rewrite length_map, length_concat_replicate.
    f_equal.
    + f_equal. replace (S j * length (root_names cfg))
        with (j * length (root_names cfg) + length (root_names cfg)) by lia.
      by rewrite seq_app.
    + unfold new_thoughts. by rewrite <- map_app, concat_replicate_snoc.
Qed.

(** X16. The tree never gets deeper than one level. After [k] turns of
    the loop the heap is the root, named after the initial task, followed by
    [k] rounds of the names the task map has for the initial task, every one
    a childless child of the root, whatever the oracle answered and whichever
    thoughts were selected; [get_next_thought] then selects the thought that
    was created last, so from the second turn on the same name is explored
    in every turn. *)
Theorem X16_tree_stays_flat (cfg : Config) (answers : list str) (k : nat) (w' : World) :
  turns cfg k (seeded cfg answers) = Ret (tt, w') →
  heap w' = root_with_rounds cfg k
  ∧ thought_tree w' = {| root := Some 0 |}
  ∧ length (heap w') = 1 + k * length (root_names cfg)
  ∧ get_next_thought (heap w') (thought_tree w') = Ret (Some (length (heap w') - 1))
  ∧ (∀ i th, heap w' !! S i = Some th →
       parent th = Some 0 ∧ children th = []
       ∧ Some (thought_name th)
         = root_names cfg !! (i `mod` length (root_names cfg))).
Proof.
  intros H.
  destruct (turns_rounds cfg k 0 (seeded cfg answers) w') as [Hh Ht]; [done..|].
  cbn [Nat.add] in Hh.
  assert (length (heap w') = 1 + k * length (root_names cfg)) as Hlen.
  { rewrite Hh. unfold root_with_rounds, new_thoughts. cbn [length].
    by rewrite length_map, length_concat_replicate. }
  split_and!; [done..| |].
  - rewrite Hlen, Ht, Hh. unfold root_with_rounds.
    rewrite <- (length_concat_replicate k (root_names cfg)).
    rewrite get_next_thought_flat. do 2 f_equal. lia.
  - intros i th. rewrite Hh. unfold root_with_rounds.
    change ((?x :: ?l) !! S i) with (l !! i). rewrite lookup_new_thoughts.
    destruct (concat (replicate k (root_names cfg)) !! i) as [name|] eqn:Hname;
      [|done].
    intros [= <-]. cbn [parent children thought_name]. split_and!; [done..|].
    clear -Hname. revert i Hname. induction k as [|k IH]; intros i; [done|].
    simpl. intros Hname.
    destruct (decide (i < length (root_names cfg))) as [Hlt|Hge].
    + rewrite lookup_app_l in Hname by done.
      by rewrite Nat.mod_small.
    + rewrite lookup_app_r in Hname by lia.
      apply IH in Hname. rewrite Hname.
      rewrite <- (Nat.Div0.mod_add (i - length (root_names cfg)) 1).
      do 2 f_equal. lia.
Qed.

Lemma X16_tree_stays_flat_witness :
  ∃ w', turns staged 2 (seeded staged staged_answers) = Ret (tt, w')
        ∧ get_next_thought (heap w') (thought_tree w') = Ret (Some 6)
        ∧ map (name_at (heap w')) [4; 5; 6]
          = [lit "Define problem"; lit "Gather resources"; lit "Develop plan"].
Proof.
  assert (∃ w', turns staged 2 (seeded staged staged_answers) = Ret (tt, w'))
    as [w' Hrun] by (eexists; vm_compute; reflexivity).
  exists w'. split; [exact Hrun|].
  destruct (X16_tree_stays_flat staged staged_answers 2 w' Hrun)
    as (Hh & _ & Hlen & Hget & _).
  split.
  - rewrite Hget, Hlen. reflexivity.
  - rewrite Hh. reflexivity.
Defined.

(** ** The run as a whole *)

(** The loop, given turns enough for the answers the oracle has. *)
Lemma main_loop_outcome cfg n w r :
  JOIN_EXISTING_OBJECTIVE cfg = false →
  built (heap w) (thought_tree w) → root (thought_tree w) = Some r →
  length (oracle w) < 2 * n →
  main_loop cfg n w
  = match tasks (tasks_storage w) with
    | [] => Raise IndexError
    | _ :: _ => main_outcome (oracle w)
    end.
Proof.
  intros Hjoin. revert w. induction n as [|n IH]; intros w Hb Hr Hlen; [lia|].
  unfold main_loop. cbn [while]. fold (main_loop cfg n).
  unfold is_thought_tree_empty. rewrite Hr. cbn [negb]. unfold bind.
  destruct (tasks (tasks_storage w)) as [|task rest] eqn:Htasks.
  { by rewrite (main_body_empty_store cfg w r). }
  destruct (oracle w) as [|result [|response more]] eqn:Horacle.
  - by rewrite (main_body_no_result cfg w r task rest).
  - by rewrite (main_body_no_list cfg w r task rest result).
  - apply built_wf in Hb as Hwf.
    pose proof (proj2 Hwf r Hr) as Hlt.
    destruct (lookup_lt_is_Some_2 (heap w) r Hlt) as [th Hth].
    destruct (main_body_run cfg w r th task rest result response more)
      as (cur & thc & _ & _ & _ & Hrun); [done..|].
    destruct (main_body_built cfg w _ Hb Hrun) as [Hb' Ht'].
    rewrite Hrun. rewrite IH; [done|exact Hb'|by rewrite Ht'|].
    simpl in *. lia.
Qed.

Lemma split_elems sep s : Forall (λ l, ∀ x, x ∈ l → x ∈ s) (split sep s).
Proof.
  induction s as [|c s IH]; simpl.
  - apply Forall_cons. split; [done | apply Forall_nil_2].
  - destruct (N.eqb_spec c sep) as [->|Hne].
    + apply Forall_cons. split.
      * by intros x ?%elem_of_nil.
      * eapply Forall_impl; [exact IH|]. intros l Hl x Hx.
        apply elem_of_cons. right. by apply Hl.
    + destruct (split sep s) as [|l ls].
      * apply Forall_cons. split; [|apply Forall_nil_2].
        intros x ->%list_elem_of_singleton. apply list_elem_of_here.
      * apply Forall_cons in IH as [Hl Hls]. apply Forall_cons. split.
        -- intros x [->|Hx]%elem_of_cons; apply elem_of_cons; [by left|].
           right. by apply Hl.
        -- eapply Forall_impl; [exact Hls|]. intros l' Hl' x Hx.
           apply elem_of_cons. right. by apply Hl'.
Qed.

(** An answer without a [.] holds no task. *)
Lemma parsed_tasks_no_dot response : dot ∉ response → parsed_tasks response = [].
Proof.
  intros Hdot. unfold parsed_tasks.
  pose proof (split_elems nl response) as Hall.
  induction Hall as [|l ls Hl _ IH]; [done|]. simpl.
  change (list_omap _ _ parse_line ls) with (omap parse_line ls).
  rewrite IH. unfold parse_line.
  assert (cut dot l = None) as ->; [|done].
  apply cut_None. intros Hin. apply Hdot. by apply Hl.
Qed.

Lemma main_outcome_cases answers :
  main_outcome answers = Diverge ∨ main_outcome answers = Raise IndexError.
Proof.
  assert (∀ n answers, length answers < n →
            main_outcome answers = Diverge ∨ main_outcome answers = Raise IndexError)
    as H; [|apply (H (S (length answers))); lia].
  clear answers. induction n as [|n IH]; intros answers Hlen; [lia|].
  destruct answers as [|result [|response more]]; [by left..|].
  simpl. destruct (parsed_tasks response); [by right|].
  apply IH. simpl in Hlen. lia.
Qed.


